(** * QuantDinger: the USDT checkout client and the payment-order engine

    The first half embeds the billing page of the Vue client
    ([views/billing/index.vue]) and its API wrapper ([api/billing.js]):
    JavaScript values with their truthiness, the computed properties of
    the page, and the asynchronous methods as an event-driven transition
    system over the component data, the browser's interval table and the
    requests in flight.

    The second half models the server-side order engine, which is not part
    of the client sources, from its written specification. *)

From Stdlib Require Import QArith Ascii.
From stdpp Require Import gmap strings list fin_maps pretty.

#[local] Set Warnings "-clear-no-such-hyp".

Local Open Scope string_scope.
Local Open Scope Z_scope.

(** ** JavaScript values *)

Module Js.

(** The primitive values that the page reads out of JSON responses.
    Numbers are restricted to integers (what the page compares against
    and prints): [Num n] stands for the double whose value is [n]. Every
    integer of magnitude at most [2^53 - 1] is such a double, arrives
    from JSON unrounded and is printed by ToString digit by digit; that
    is the range [safe_integer] below delimits, and outside of it
    [to_string] does not follow the program (a larger JSON integer is
    rounded on arrival, and from [10^21] on it is printed with an
    exponent). *)
Inductive value : Type :=
| Undefined
| Null
| Bool (b : bool)
| Num (n : Z)
| Str (s : string).

#[global] Instance value_eq_dec : EqDecision value.
Proof. solve_decision. Defined.

(** ToBoolean. *)
Definition truthy (v : value) : bool :=
  match v with
  | Undefined | Null => false
  | Bool b => b
  | Num n => negb (n =? 0)
  | Str s => negb (String.eqb s "")
  end.

(** [Number.isSafeInteger]. *)
Definition safe_integer (n : Z) : bool := Z.abs n <=? 2 ^ 53 - 1.

(** The values this type stands for faithfully: every value that is not
    a number, and the safe integers. *)
Definition exact (v : value) : bool :=
  match v with
  | Num n => safe_integer n
  | _ => true
  end.

(** ToString, as applied by [String(v)] and by template literals, on
    the [exact] values. *)
Definition to_string (v : value) : string :=
  match v with
  | Undefined => "undefined"
  | Null => "null"
  | Bool true => "true"
  | Bool false => "false"
  | Num n => pretty n
  | Str s => s
  end.

(** The strings that begin like a printed number (or are empty). *)
Definition numeric_head (s : string) : bool :=
  match s with
  | EmptyString => true
  | String c _ =>
      bool_decide
        (c ∈ ["0"; "1"; "2"; "3"; "4"; "5"; "6"; "7"; "8"; "9"; "-"]%char)
  end.

(** [a || b]. *)
Definition or (a b : value) : value := if truthy a then a else b.

(** [a === b] on primitives. *)
Definition strict_eq (a b : value) : bool := bool_decide (a = b).

(** The property names every plain object inherits from
    [Object.prototype]; reading one of them from an object literal that
    does not define it yields the inherited built-in, not [undefined]. *)
Definition object_prototype_keys : list string :=
  [ "constructor"; "hasOwnProperty"; "isPrototypeOf";
    "propertyIsEnumerable"; "toLocaleString"; "toString"; "valueOf";
    "__proto__"; "__defineGetter__"; "__defineSetter__";
    "__lookupGetter__"; "__lookupSetter__" ].

(** What a property read on an object literal with string-valued own
    properties can produce. *)
Inductive prop : Type :=
| Own (s : string)
| Inherited (name : string)
| Missing.

Definition get (own : gmap string string) (k : string) : prop :=
  match own !! k with
  | Some v => Own v
  | None => if bool_decide (k ∈ object_prototype_keys) then Inherited k
            else Missing
  end.

End Js.

(** ** The API wrapper, [api/billing.js] *)

Module Api.

Inductive method : Type := GET | POST.

#[global] Instance method_eq_dec : EqDecision method.
Proof. solve_decision. Defined.

(** The argument object handed to [request]. *)
Record Request : Type := mkRequest {
  url : string;
  meth : method;
  params : list (string * Js.value);
  data : list (string * Js.value)
}.

#[global] Instance Request_eq_dec : EqDecision Request.
Proof. solve_decision. Defined.

Module billingApi.
Definition Plans : string := "/api/billing/plans".
Definition Purchase : string := "/api/billing/purchase".
Definition UsdtCreate : string := "/api/billing/usdt/create".
Definition UsdtOrder (id : Js.value) : string :=
  "/api/billing/usdt/order/" +:+ Js.to_string id.
End billingApi.

Definition getMembershipPlans : Request :=
  {| url := billingApi.Plans; meth := GET; params := []; data := [] |}.

Definition purchaseMembership (plan : Js.value) : Request :=
  {| url := billingApi.Purchase; meth := POST; params := [];
     data := [("plan", plan)] |}.

Definition createUsdtOrder (plan : Js.value) : Request :=
  {| url := billingApi.UsdtCreate; meth := POST; params := [];
     data := [("plan", plan)] |}.

(** [refresh = true] is a default parameter: it applies exactly when the
    argument is [undefined] (or omitted). *)
Definition getUsdtOrder (orderId : Js.value) (refresh : Js.value) : Request :=
  let refresh := match refresh with Js.Undefined => Js.Bool true | r => r end in
  {| url := billingApi.UsdtOrder orderId; meth := GET;
     params := [("refresh", Js.Num (if Js.truthy refresh then 1 else 0))];
     data := [] |}.

End Api.

(** ** The billing page, [views/billing/index.vue] *)

Module Page.

(** The order object as the server returns it in [res.data]; only the
    fields the page reads. *)
Record UsdtOrder : Type := mkUsdtOrder {
  order_id : Js.value;
  status : Js.value;
  address : Js.value;
  amount_usdt : Js.value;
  chain : Js.value;
  expires_at : Js.value
}.

#[global] Instance UsdtOrder_eq_dec : EqDecision UsdtOrder.
Proof. solve_decision. Defined.

(** One entry of the plan table. The price is a decimal literal in the
    source ([19.9]) and is kept as an exact rational. *)
Record Plan : Type := mkPlan {
  price_usd : Q;
  credits_once : option Z;
  credits_monthly : option Z
}.

Record Plans : Type := mkPlans {
  monthly : Plan;
  yearly : Plan;
  lifetime : Plan
}.

Record Billing : Type := mkBilling {
  credits : Z;
  is_vip : bool;
  vip_expires_at : Js.value
}.

(** The component's reactive data. [usdtOrder] and [usdtPollingTimer]
    are [null] or a value. *)
Record Data : Type := mkData {
  loading : bool;
  purchasing : Js.value;
  usdtModalVisible : bool;
  usdtOrder : option UsdtOrder;
  usdtPollingTimer : option nat;
  usdtRefreshing : bool;
  billing : Billing;
  plans : Plans
}.

(** [data ()]. *)
Definition data0 : Data :=
  {| loading := false;
     purchasing := Js.Str "";
     usdtModalVisible := false;
     usdtOrder := None;
     usdtPollingTimer := None;
     usdtRefreshing := false;
     billing := {| credits := 0; is_vip := false; vip_expires_at := Js.Null |};
     plans :=
       {| monthly := {| price_usd := 199 # 10; credits_once := Some 500;
                        credits_monthly := None |};
          yearly := {| price_usd := 199 # 1; credits_once := Some 8000;
                       credits_monthly := None |};
          lifetime := {| price_usd := 499 # 1; credits_once := None;
                         credits_monthly := Some 800 |} |} |}.

(** The common first line of the three status-computed properties:
    [(this.usdtOrder && this.usdtOrder.status)
       ? String(this.usdtOrder.status) : ''] *)
Definition status_string (o : option UsdtOrder) : string :=
  match o with
  | Some o => if Js.truthy (status o) then Js.to_string (status o) else ""
  | None => ""
  end.

Definition statusColor (o : option UsdtOrder) : string :=
  let s := status_string o in
  if String.eqb s "confirmed" then "green"
  else if String.eqb s "paid" then "blue"
  else if String.eqb s "expired" || String.eqb s "failed"
          || String.eqb s "cancelled" then "red"
  else "orange".

Definition usdtStepCurrent (o : option UsdtOrder) : nat :=
  let s := status_string o in
  if String.eqb s "confirmed" then 2%nat
  else if String.eqb s "paid" then 1%nat
  else 0%nat.

Definition getUsdtQrText (o : option UsdtOrder) : Js.value :=
  match o with
  | None => Js.Str ""
  | Some o => Js.or (address o) (Js.Str "")
  end.

(** *** Responses of the backend, as [request] resolves them *)

(** The JSON envelope [{ code, msg, data }]. [data] is [None] when the
    field is absent, [null] or otherwise falsy. *)
Record Res (D : Type) : Type := mkRes {
  code : Js.value;
  msg : Js.value;
  data : option D
}.
Arguments mkRes {D}.
Arguments code {D}.
Arguments msg {D}.
Arguments data {D}.

(** How an awaited request ends: the promise is fulfilled with a value
    (possibly [undefined]), or it is rejected (network error, timeout,
    non-2xx status); [emsg] is [e?.response?.data?.msg]. *)
Inductive Outcome (D : Type) : Type :=
| Fulfilled (res : option (Res D))
| Rejected (emsg : Js.value).
Arguments Fulfilled {D}.
Arguments Rejected {D}.

(** [res && res.code === 1 && res.data], returning the data. *)
Definition accepted {D} (out : Outcome D) : option D :=
  match out with
  | Fulfilled (Some res) =>
      if Js.strict_eq (code res) (Js.Num 1) then data res else None
  | Fulfilled None | Rejected _ => None
  end.

(** [res?.msg] or [e?.response?.data?.msg]. *)
Definition reported_msg {D} (out : Outcome D) : Js.value :=
  match out with
  | Fulfilled (Some res) => msg res
  | Fulfilled None => Js.Undefined
  | Rejected emsg => emsg
  end.

(** The [data] of [GET /api/billing/plans]. *)
Record MembershipData : Type := mkMembershipData {
  data_plans : option Plans;
  data_billing : option Billing
}.

(** *** The page in its environment *)

Inductive Callback : Type := CallRefreshUsdtOrder.

(** An entry of the browser's table of active intervals. *)
Record Interval : Type := mkInterval {
  period_ms : nat;
  callback : Callback
}.

(** A suspended [async] method: what it is awaiting. [AwaitPlans true]
    is a [load ()] that [refreshUsdtOrder] itself awaits (its resumption
    runs the rest of [refreshUsdtOrder]); [AwaitPlans false] is the
    [load ()] of [created]. *)
Inductive Task : Type :=
| AwaitPlans (in_refresh : bool)
| AwaitCreate
| AwaitOrder.

#[global] Instance Task_eq_dec : EqDecision Task.
Proof. solve_decision. Defined.

Inductive Toast : Type :=
| ToastError (m : Js.value)
| ToastSuccess (m : Js.value).

Record World : Type := mkWorld {
  vm : Data;
  intervals : gmap nat Interval;
  next_handle : nat;
  sent : list Api.Request;
  toasts : list Toast;
  inflight : list Task
}.

(** The world before [created]: no interval is scheduled, and the first
    handle [setInterval] hands out is [1] (handles are positive). *)
Definition world0 : World :=
  {| vm := data0; intervals := ∅; next_handle := 1; sent := [];
     toasts := []; inflight := [] |}.

Definition with_vm (f : Data → Data) (w : World) : World :=
  {| vm := f (vm w); intervals := intervals w; next_handle := next_handle w;
     sent := sent w; toasts := toasts w; inflight := inflight w |}.

Definition set_loading (b : bool) (d : Data) : Data :=
  {| loading := b; purchasing := purchasing d;
     usdtModalVisible := usdtModalVisible d; usdtOrder := usdtOrder d;
     usdtPollingTimer := usdtPollingTimer d;
     usdtRefreshing := usdtRefreshing d; billing := billing d;
     plans := plans d |}.

Definition set_purchasing (p : Js.value) (d : Data) : Data :=
  {| loading := loading d; purchasing := p;
     usdtModalVisible := usdtModalVisible d; usdtOrder := usdtOrder d;
     usdtPollingTimer := usdtPollingTimer d;
     usdtRefreshing := usdtRefreshing d; billing := billing d;
     plans := plans d |}.

Definition set_usdtModalVisible (b : bool) (d : Data) : Data :=
  {| loading := loading d; purchasing := purchasing d;
     usdtModalVisible := b; usdtOrder := usdtOrder d;
     usdtPollingTimer := usdtPollingTimer d;
     usdtRefreshing := usdtRefreshing d; billing := billing d;
     plans := plans d |}.

Definition set_usdtOrder (o : option UsdtOrder) (d : Data) : Data :=
  {| loading := loading d; purchasing := purchasing d;
     usdtModalVisible := usdtModalVisible d; usdtOrder := o;
     usdtPollingTimer := usdtPollingTimer d;
     usdtRefreshing := usdtRefreshing d; billing := billing d;
     plans := plans d |}.

Definition set_usdtPollingTimer (h : option nat) (d : Data) : Data :=
  {| loading := loading d; purchasing := purchasing d;
     usdtModalVisible := usdtModalVisible d; usdtOrder := usdtOrder d;
     usdtPollingTimer := h;
     usdtRefreshing := usdtRefreshing d; billing := billing d;
     plans := plans d |}.

Definition set_usdtRefreshing (b : bool) (d : Data) : Data :=
  {| loading := loading d; purchasing := purchasing d;
     usdtModalVisible := usdtModalVisible d; usdtOrder := usdtOrder d;
     usdtPollingTimer := usdtPollingTimer d;
     usdtRefreshing := b; billing := billing d;
     plans := plans d |}.

Definition set_membership (p : Plans) (b : Billing) (d : Data) : Data :=
  {| loading := loading d; purchasing := purchasing d;
     usdtModalVisible := usdtModalVisible d; usdtOrder := usdtOrder d;
     usdtPollingTimer := usdtPollingTimer d;
     usdtRefreshing := usdtRefreshing d; billing := b;
     plans := p |}.

(** [request (r)]: the request goes out and the caller suspends. *)
Definition request (r : Api.Request) (k : Task) (w : World) : World :=
  {| vm := vm w; intervals := intervals w; next_handle := next_handle w;
     sent := sent w ++ [r]; toasts := toasts w;
     inflight := inflight w ++ [k] |}.

Definition toast (m : Toast) (w : World) : World :=
  {| vm := vm w; intervals := intervals w; next_handle := next_handle w;
     sent := sent w; toasts := toasts w ++ [m]; inflight := inflight w |}.

(** [setInterval (cb, ms)]: a fresh positive handle. *)
Definition setInterval (cb : Callback) (ms : nat) (w : World) : nat * World :=
  let h := next_handle w in
  (h, {| vm := vm w;
         intervals := <[h := {| period_ms := ms; callback := cb |}]> (intervals w);
         next_handle := S h; sent := sent w; toasts := toasts w;
         inflight := inflight w |}).

Definition clearInterval (h : nat) (w : World) : World :=
  {| vm := vm w; intervals := delete h (intervals w);
     next_handle := next_handle w; sent := sent w; toasts := toasts w;
     inflight := inflight w |}.

(** [stopUsdtPolling]: the guard [if (this.usdtPollingTimer)] is a
    truthiness test, so a handle [0] would be skipped like [null]. *)
Definition stopUsdtPolling (w : World) : World :=
  match usdtPollingTimer (vm w) with
  | Some h =>
      if Nat.eqb h 0 then w
      else with_vm (set_usdtPollingTimer None) (clearInterval h w)
  | None => w
  end.

Definition startUsdtPolling (w : World) : World :=
  let w := stopUsdtPolling w in
  let '(h, w) := setInterval CallRefreshUsdtOrder 5000 w in
  with_vm (set_usdtPollingTimer (Some h)) w.

Definition closeUsdtModal (w : World) : World :=
  stopUsdtPolling (with_vm (set_usdtModalVisible false) w).

Definition beforeDestroy (w : World) : World := stopUsdtPolling w.

(** [load], up to its [await]. *)
Definition load (in_refresh : bool) (w : World) : World :=
  request Api.getMembershipPlans (AwaitPlans in_refresh)
          (with_vm (set_loading true) w).

(** [load], from its [await] to the end of [finally]. *)
Definition load_resumed (out : Outcome MembershipData) (w : World) : World :=
  let w :=
    match accepted out with
    | Some d =>
        with_vm (fun v =>
          set_membership (default (plans v) (data_plans d))
                         (default (billing v) (data_billing d)) v) w
    | None =>
        toast (ToastError (Js.or (reported_msg out) (Js.Str "Load failed"))) w
    end in
  with_vm (set_loading false) w.

(** [refreshUsdtOrder], up to its first [await]; the guard returns
    without a request. *)
Definition refreshUsdtOrder (w : World) : World :=
  match usdtOrder (vm w) with
  | None => w
  | Some o =>
      if Js.truthy (order_id o) then
        request (Api.getUsdtOrder (order_id o) (Js.Bool true)) AwaitOrder
                (with_vm (set_usdtRefreshing true) w)
      else w
  end.

(** The rest of [refreshUsdtOrder] once the inner [await this.load ()]
    has returned ([load] catches its own errors): stop polling, then
    [finally]. *)
Definition refreshUsdtOrder_loaded (w : World) : World :=
  with_vm (set_usdtRefreshing false) (stopUsdtPolling w).

Section Translated.

(** [this.$t], the translation lookup of the i18n plugin. *)
Variable t : string → string.

(** The object literal [map] of [statusText]. *)
Definition status_map : gmap string string :=
  list_to_map
    [ ("pending", t "billing.usdt.status.pending");
      ("paid", t "billing.usdt.status.paid");
      ("confirmed", t "billing.usdt.status.confirmed");
      ("expired", t "billing.usdt.status.expired");
      ("cancelled", t "billing.usdt.status.cancelled");
      ("failed", t "billing.usdt.status.failed") ].

(** [map[s] || s || '--']. An inherited built-in is an object and
    therefore truthy: it is returned as it is. *)
Definition statusText (o : option UsdtOrder) : Js.prop :=
  let s := status_string o in
  match Js.get status_map s with
  | Js.Own v =>
      if Js.truthy (Js.Str v) then Js.Own v
      else Js.Own (Js.to_string (Js.or (Js.Str s) (Js.Str "--")))
  | Js.Inherited k => Js.Inherited k
  | Js.Missing => Js.Own (Js.to_string (Js.or (Js.Str s) (Js.Str "--")))
  end.

Definition stepItems : list string :=
  [ t "billing.usdt.status.pending";
    t "billing.usdt.status.paid";
    t "billing.usdt.status.confirmed" ].


(** [buy (plan)], up to its [await]. *)
Definition buy (plan : Js.value) (w : World) : World :=
  request (Api.createUsdtOrder plan) AwaitCreate
          (with_vm (set_purchasing plan) w).

(** [buy], from its [await] to the end of [finally]. *)
Definition buy_resumed (out : Outcome UsdtOrder) (w : World) : World :=
  let w :=
    match accepted out with
    | Some d =>
        startUsdtPolling
          (with_vm (set_usdtModalVisible true)
             (with_vm (set_usdtOrder (Some d)) w))
    | None =>
        toast (ToastError (Js.or (reported_msg out)
                                 (Js.Str (t "billing.purchaseFailed")))) w
    end in
  with_vm (set_purchasing (Js.Str "")) w.

(** [refreshUsdtOrder], from its first [await] on. On a confirmed
    order it suspends again in [await this.load ()]; in every other
    case it runs through the empty [catch] to [finally]. *)
Definition refreshUsdtOrder_resumed (out : Outcome UsdtOrder) (w : World)
  : World :=
  match accepted out with
  | Some d =>
      let w := with_vm (set_usdtOrder (Some d)) w in
      if Js.strict_eq (status d) (Js.Str "confirmed") then
        load true
          (toast (ToastSuccess (Js.Str (t "billing.usdt.paidSuccess"))) w)
      else with_vm (set_usdtRefreshing false) w
  | None => with_vm (set_usdtRefreshing false) w
  end.

(** [copyText (txt)], the handler of the two copy buttons. The clipboard
    plugin behind [this.$copyText] is not part of the page: [copied] is
    the list of texts it was handed so far, and [plugin_throws] says
    whether the call throws. *)
Definition copyText (plugin_throws : bool) (txt : Js.value)
    (copied : list string) (w : World) : list string * World :=
  let s := Js.to_string (Js.or txt (Js.Str "")) in
  if String.eqb s "" then (copied, w)
  else if plugin_throws then
    (copied,
     toast (ToastError
              (Js.or (Js.Str (t "common.copyFailed")) (Js.Str "Copy failed"))) w)
  else
    ((copied ++ [s])%list,
     toast (ToastSuccess
              (Js.or (Js.Str (t "common.copySuccess")) (Js.Str "Copied"))) w).

(** *** The event loop *)

(** The two copy buttons of the payment modal, [copyText (usdtOrder.address)]
    and [copyText (usdtOrder.amount_usdt)]. *)
Inductive CopyButton : Type := CopyAddress | CopyAmount.

Definition copied_value (b : CopyButton) (o : UsdtOrder) : Js.value :=
  match b with
  | CopyAddress => address o
  | CopyAmount => amount_usdt o
  end.

Inductive Reply : Type :=
| OrderReply (out : Outcome UsdtOrder)
| PlansReply (out : Outcome MembershipData).

(** What can happen to the page: the user presses a plan's button, the
    refresh button or a close button; the page is torn down; an
    interval fires; the request that the [i]-th suspended method waits
    for is answered; the user presses one of the two copy buttons, and
    the clipboard plugin throws or does not. *)
Inductive Event : Type :=
| ClickBuy (plan : Js.value)
| ClickRefresh
| ClickClose
| Destroy
| Tick (h : nat)
| Answered (i : nat) (r : Reply)
| ClickCopy (plugin_throws : bool) (b : CopyButton).

Definition resume (k : Task) (r : Reply) (w : World) : option World :=
  match k, r with
  | AwaitCreate, OrderReply out => Some (buy_resumed out w)
  | AwaitOrder, OrderReply out => Some (refreshUsdtOrder_resumed out w)
  | AwaitPlans false, PlansReply out => Some (load_resumed out w)
  | AwaitPlans true, PlansReply out =>
      Some (refreshUsdtOrder_loaded (load_resumed out w))
  | _, _ => None
  end.

Definition drop_task (i : nat) (w : World) : World :=
  {| vm := vm w; intervals := intervals w; next_handle := next_handle w;
     sent := sent w; toasts := toasts w;
     inflight := delete i (inflight w) |}.

(** One turn of the event loop; [None] when the event cannot occur in
    this world (no such interval, no such suspended method, a reply of
    the wrong kind, or a copy button that is not rendered because no
    order is displayed). *)
Definition step (w : World) (e : Event) : option World :=
  match e with
  | ClickBuy plan => Some (buy plan w)
  | ClickRefresh => Some (refreshUsdtOrder w)
  | ClickClose => Some (closeUsdtModal w)
  | Destroy => Some (beforeDestroy w)
  | Tick h =>
      match intervals w !! h with
      | Some iv =>
          match callback iv with
          | CallRefreshUsdtOrder => Some (refreshUsdtOrder w)
          end
      | None => None
      end
  | Answered i r =>
      match inflight w !! i with
      | Some k => resume k r (drop_task i w)
      | None => None
      end
  | ClickCopy plugin_throws b =>
      (* the buttons sit under [v-if="usdtOrder"]; the clipboard is no
         part of the page's world *)
      match usdtOrder (vm w) with
      | Some o => Some (copyText plugin_throws (copied_value b o) [] w).2
      | None => None
      end
  end.

Fixpoint run (w : World) (es : list Event) : option World :=
  match es with
  | [] => Some w
  | e :: es =>
      match step w e with
      | Some w' => run w' es
      | None => None
      end
  end.

(** [created ()] calls [load ()] and does not await it. *)
Definition created (w : World) : World := load false w.

Definition reachable (w : World) : Prop :=
  ∃ es, run (created world0) es = Some w.

(** The interval [startUsdtPolling] schedules. *)
Definition polling : Interval :=
  {| period_ms := 5000; callback := CallRefreshUsdtOrder |}.

(** The handle stored in the component and the browser's interval
    table agree: the handle is set exactly when one interval, the
    polling one, is scheduled under it. *)
Definition timer_inv (w : World) : Prop :=
  (0 < next_handle w)%nat ∧
  match usdtPollingTimer (vm w) with
  | Some h => h ≠ 0%nat ∧ intervals w = {[ h := polling ]}
  | None => intervals w = ∅
  end.

(** The part of the world the timer discipline is about. *)
Definition timer_view (w : World) : option nat * gmap nat Interval * nat :=
  (usdtPollingTimer (vm w), intervals w, next_handle w).

(** How many suspended [refreshUsdtOrder] calls sit in their inner
    [await this.load ()], the only place from which the method goes on
    to stop the polling. *)
Definition stopping_refreshes (w : World) : nat :=
  length (filter (fun k => k = AwaitPlans true) (inflight w)).

(** The polling interval [h] fires and the request it sent is answered
    before the next tick, once for each of the given answers; [n] is
    the number of methods suspended when the rounds begin. *)
Definition poll_rounds (h n : nat) (outs : list (Outcome UsdtOrder))
  : list Event :=
  outs ≫= (fun out => [Tick h; Answered n (OrderReply out)]).



End Translated.

End Page.

(** ** The payment-order engine *)

Module Engine.

(** Modelled from the spec: the order status of the server-side order
    store (section 3, [status]); the server code is not among the client
    sources. *)
Inductive Status : Type :=
| Pending | Paid | Confirmed | Expired | Cancelled | Failed.

#[global] Instance Status_eq_dec : EqDecision Status.
Proof. solve_decision. Defined.


(** Modelled from the spec: the names under which the statuses travel to
    the client (section 3). *)
Definition status_name (s : Status) : string :=
  match s with
  | Pending => "pending"
  | Paid => "paid"
  | Confirmed => "confirmed"
  | Expired => "expired"
  | Cancelled => "cancelled"
  | Failed => "failed"
  end.



(** Modelled from the spec: the terminal states named in section 4.2. *)
Definition terminal (s : Status) : bool :=
  match s with
  | Confirmed | Expired | Cancelled | Failed => true
  | Pending | Paid => false
  end.

(** Modelled from the spec: the catalog items of section 3 ([plan]). *)
Inductive PlanId : Type := Monthly | Yearly | Lifetime.

#[global] Instance PlanId_eq_dec : EqDecision PlanId.
Proof. solve_decision. Defined.

(** Modelled from the spec: the plan named in a purchase request; an
    unknown name is what [CreateOrder] rejects as [InvalidPlan]. *)
Definition plan_of_name (s : string) : option PlanId :=
  if String.eqb s "monthly" then Some Monthly
  else if String.eqb s "yearly" then Some Yearly
  else if String.eqb s "lifetime" then Some Lifetime
  else None.

(** Modelled from the spec: the [PaymentOrder] entity of section 3.
    Timestamps are in seconds, amounts are exact rationals. *)
Record PaymentOrder : Type := mkPaymentOrder {
  order_id : nat;
  owner_id : nat;
  plan : PlanId;
  derivation_index : nat;
  address : string;
  expected_amount : Q;
  observed_amount : Q;
  status : Status;
  tx_reference : option string;
  created_at : nat;
  expires_at : nat;
  confirmed_at : option nat;
  settlement_applied : bool
}.

(** Modelled from the spec: one account effect applied by the ledger
    ([ApplySettlement (owner_id, plan)], section 6): which owner was credited
    for which plan, on behalf of which order. *)
Record Credit : Type := mkCredit {
  credit_owner : nat;
  credit_plan : PlanId;
  credit_order : nat
}.

#[global] Instance Credit_eq_dec : EqDecision Credit.
Proof. solve_decision. Defined.

(** Modelled from the spec: the Settlement Effector of section 4.5. It
    is handed an order that its caller guarantees to be confirmed, tests
    [settlement_applied], and in one atomic step applies the account
    effect and sets the flag and [confirmed_at]; with the flag already
    set it does nothing. *)
Definition settlement_effector (now : nat)
    (ol : PaymentOrder * list Credit) : PaymentOrder * list Credit :=
  let '(o, ledger) := ol in
  if settlement_applied o then (o, ledger)
  else
    ({| order_id := order_id o; owner_id := owner_id o; plan := plan o;
        derivation_index := derivation_index o; address := address o;
        expected_amount := expected_amount o;
        observed_amount := observed_amount o; status := status o;
        tx_reference := tx_reference o; created_at := created_at o;
        expires_at := expires_at o; confirmed_at := Some now;
        settlement_applied := true |},
     (ledger ++ [ {| credit_owner := owner_id o; credit_plan := plan o;
                     credit_order := order_id o |} ])%list).

(** Modelled from the spec: the effector run once at each of the given
    instants, in order (the N runs of section 8). *)
Definition settle_at (times : list nat) (ol : PaymentOrder * list Credit)
  : PaymentOrder * list Credit :=
  foldl (fun acc now => settlement_effector now acc) ol times.

(** How many times the ledger was asked to credit for order [id]. *)
Definition credits_for (id : nat) (ledger : list Credit) : nat :=
  length (filter (fun c => credit_order c = id) ledger).

(** Modelled from the spec: the deployment's configuration. [derive] is
    the Address Allocator's public-key-only derivation (section 4.1,
    failing on bad parameters); [tolerance] the accepted relative
    underpayment, [fixed_ttl] the payment window and [required_depth]
    the confirmation depth (section 4.2 and 4.4). *)
Record Config : Type := mkConfig {
  derive : nat → option string;
  tolerance : Q;
  fixed_ttl : nat;
  required_depth : nat
}.

(** Modelled from the spec: the Order Store of sections 3 and 6 with the
    durable derivation counter of section 5, the plan catalog's current
    prices and the account ledger's record of applied credits. *)
Record Store : Type := mkStore {
  orders : gmap nat PaymentOrder;
  next_order_id : nat;
  next_index : nat;
  price : PlanId → Q;
  ledger : list Credit
}.

(** Modelled from the spec: the store before any order exists. *)
Definition empty_store (prices : PlanId → Q) : Store :=
  {| orders := ∅; next_order_id := 0; next_index := 0; price := prices;
     ledger := [] |}.

(** Modelled from the spec: the failures of the boundary operations of
    section 6. *)
Inductive Error : Type := InvalidPlan | AllocationError | NotFound.

(** Modelled from the spec: one entry of [ListTransfers (address)]
    (section 6). *)
Record Transfer : Type := mkTransfer {
  amount : Q;
  tx : string;
  confirmations : nat
}.

(** Modelled from the spec: what the Chain Oracle Client hands back
    (section 4.3): the transfers, or an error
    (a timeout counts as a retryable error). *)
Inductive OracleAnswer : Type :=
| Transfers (l : list Transfer)
| Retryable
| Fatal.

(** Modelled from the spec: the write of one order under its id. *)
Definition put (o : PaymentOrder) (st : Store) : Store :=
  {| orders := <[order_id o := o]> (orders st);
     next_order_id := next_order_id st; next_index := next_index st;
     price := price st; ledger := ledger st |}.

(** Modelled from the spec: a change of [status] and of nothing else. *)
Definition with_status (s : Status) (o : PaymentOrder) : PaymentOrder :=
  {| order_id := order_id o; owner_id := owner_id o; plan := plan o;
     derivation_index := derivation_index o; address := address o;
     expected_amount := expected_amount o;
     observed_amount := observed_amount o; status := s;
     tx_reference := tx_reference o; created_at := created_at o;
     expires_at := expires_at o; confirmed_at := confirmed_at o;
     settlement_applied := settlement_applied o |}.

(** Modelled from the spec: the unique constraint on [address] of section
    6: is the address already owned? *)
Definition address_taken (a : string) (st : Store) : bool :=
  bool_decide (a ∈ (address <$> (map_to_list (orders st)).*2)).

(** Modelled from the spec: [CreateOrder] (sections 2, 4.1 and 6). The
    counter is advanced atomically, the address is derived from the
    index taken, and the insert is subject to the store's unique
    constraint on [address]; the price is read from the catalog at this
    moment. *)
Definition CreateOrder (cfg : Config) (owner : nat) (plan_name : string)
    (now : nat) (st : Store) : Store * (Error + PaymentOrder) :=
  match plan_of_name plan_name with
  | None => (st, inl InvalidPlan)
  | Some p =>
      let idx := next_index st in
      let st := {| orders := orders st; next_order_id := next_order_id st;
                   next_index := S idx; price := price st;
                   ledger := ledger st |} in
      match derive cfg idx with
      | None => (st, inl AllocationError)
      | Some a =>
          if address_taken a st then (st, inl AllocationError)
          else
            let o :=
              {| order_id := next_order_id st; owner_id := owner;
                 plan := p; derivation_index := idx; address := a;
                 expected_amount := price st p; observed_amount := 0%Q;
                 status := Pending; tx_reference := None;
                 created_at := now; expires_at := (now + fixed_ttl cfg)%nat;
                 confirmed_at := None; settlement_applied := false |} in
            ({| orders := <[order_id o := o]> (orders st);
                next_order_id := S (next_order_id st);
                next_index := next_index st; price := price st;
                ledger := ledger st |}, inr o)
      end
  end.

(** Modelled from the spec: [GetOrder] (section 6). *)
Definition GetOrder (id : nat) (st : Store) : Error + PaymentOrder :=
  match orders st !! id with
  | Some o => inr o
  | None => inl NotFound
  end.

(** Modelled from the spec: the guard of the first row of section 4.2.
    A transfer pays for the order when its amount reaches
    [expected_amount × (1 − tolerance)]. *)
Definition satisfies (cfg : Config) (o : PaymentOrder) (tr : Transfer) : bool :=
  Qle_bool (expected_amount o * (1 - tolerance cfg)) (amount tr).

(** Modelled from the spec: the write of the pending-to-paid step of
    section 4.4: [status], the first-seen [tx_reference], and an
    [observed_amount] that never decreases. *)
Definition mark_paid (tr : Transfer) (o : PaymentOrder) : PaymentOrder :=
  {| order_id := order_id o; owner_id := owner_id o; plan := plan o;
     derivation_index := derivation_index o; address := address o;
     expected_amount := expected_amount o;
     observed_amount :=
       (if Qle_bool (observed_amount o) (amount tr) then amount tr
        else observed_amount o);
     status := Paid;
     tx_reference :=
       (match tx_reference o with Some r => Some r | None => Some (tx tr) end);
     created_at := created_at o; expires_at := expires_at o;
     confirmed_at := confirmed_at o;
     settlement_applied := settlement_applied o |}.

(** Modelled from the spec: the guard of the paid-to-confirmed step of
    section 4.4: has the recorded transaction reached the required depth? *)
Definition deep_enough (cfg : Config) (o : PaymentOrder)
    (l : list Transfer) : bool :=
  match tx_reference o with
  | Some r =>
      bool_decide (Exists (fun tr => tx tr = r ∧
                             (required_depth cfg ≤ confirmations tr)%nat) l)
  | None => false
  end.

(** Modelled from the spec: one Reconciler pass over one order (section
    4.4). An oracle error leaves the order as it is. *)
Definition Reconcile (cfg : Config) (id : nat) (ans : OracleAnswer)
    (now : nat) (st : Store) : Store :=
  match orders st !! id, ans with
  | Some o, Transfers l =>
      match status o with
      | Pending =>
          match List.find (satisfies cfg o) l with
          | Some tr => put (mark_paid tr o) st
          | None => st
          end
      | Paid =>
          if deep_enough cfg o l then
            let '(o', ledger') :=
              settlement_effector now (with_status Confirmed o, ledger st) in
            {| orders := <[id := o']> (orders st);
               next_order_id := next_order_id st;
               next_index := next_index st; price := price st;
               ledger := ledger' |}
          else st
      | _ => st
      end
  | _, _ => st
  end.

(** Modelled from the spec: [RefreshOrder] (sections 5 and 6): one
    on-demand pass, then the current persisted state. *)
Definition RefreshOrder (cfg : Config) (id : nat) (ans : OracleAnswer)
    (now : nat) (st : Store) : Store * (Error + PaymentOrder) :=
  match orders st !! id with
  | None => (st, inl NotFound)
  | Some _ =>
      let st' := Reconcile cfg id ans now st in
      (st', GetOrder id st')
  end.

(** Modelled from the spec: the conditional status write of section 5.
    The order moves to [to] only from a status accepted by [guard]. *)
Definition move_if (guard : PaymentOrder → bool) (to : Status) (id : nat)
    (st : Store) : Store :=
  match orders st !! id with
  | Some o => if guard o then put (with_status to o) st else st
  | None => st
  end.

(** Modelled from the spec: the Expiry Sweeper on one order (section
    4.6), cancellation and the failure transitions (section 4.2). *)
Definition Expire (id now : nat) : Store → Store :=
  move_if (fun o => bool_decide (status o = Pending)
                    && bool_decide (expires_at o ≤ now)%nat) Expired id.

Definition Cancel (id : nat) : Store → Store :=
  move_if (fun o => bool_decide (status o = Pending)) Cancelled id.

Definition Fail (id : nat) : Store → Store :=
  move_if (fun o => negb (terminal (status o))) Failed id.

(** Modelled from the spec: the Settlement Effector of section 4.5 run
    again on a stored order, as a retry would; the caller's guarantee is
    that the order is confirmed. *)
Definition Settle (id now : nat) (st : Store) : Store :=
  match orders st !! id with
  | Some o =>
      if bool_decide (status o = Confirmed) then
        let '(o', ledger') := settlement_effector now (o, ledger st) in
        {| orders := <[id := o']> (orders st);
           next_order_id := next_order_id st;
           next_index := next_index st; price := price st;
           ledger := ledger' |}
      else st
  | None => st
  end.

(** Modelled from the spec: the catalog, an external collaborator
    (section 1), changes a plan's price. *)
Definition SetPrice (p : PlanId) (q : Q) (st : Store) : Store :=
  {| orders := orders st; next_order_id := next_order_id st;
     next_index := next_index st;
     price := (fun p' => if bool_decide (p' = p) then q else price st p');
     ledger := ledger st |}.

(** Modelled from the spec: everything that can happen to the store
    (section 3, lifecycle). *)
Inductive Op : Type :=
| OpCreate (owner : nat) (plan_name : string) (now : nat)
| OpReconcile (id : nat) (ans : OracleAnswer) (now : nat)
| OpExpire (id now : nat)
| OpCancel (id : nat)
| OpFail (id : nat)
| OpSettle (id now : nat)
| OpSetPrice (p : PlanId) (q : Q).

(** Modelled from the spec: the store after one operation. *)
Definition apply (cfg : Config) (st : Store) (op : Op) : Store :=
  match op with
  | OpCreate owner plan_name now => (CreateOrder cfg owner plan_name now st).1
  | OpReconcile id ans now => Reconcile cfg id ans now st
  | OpExpire id now => Expire id now st
  | OpCancel id => Cancel id st
  | OpFail id => Fail id st
  | OpSettle id now => Settle id now st
  | OpSetPrice p q => SetPrice p q st
  end.

(** Modelled from the spec: the store after a history of operations. *)
Definition exec (cfg : Config) (st : Store) (ops : list Op) : Store :=
  foldl (apply cfg) st ops.

(** What never changes about an order once it exists. *)
Definition same_identity (o o' : PaymentOrder) : Prop :=
  order_id o' = order_id o ∧ owner_id o' = owner_id o ∧ plan o' = plan o ∧
  derivation_index o' = derivation_index o ∧ address o' = address o ∧
  expected_amount o' = expected_amount o ∧
  created_at o' = created_at o ∧ expires_at o' = expires_at o.

(** The store's keys are the orders' ids, all below the id counter, and
    no two entries hold the same address. *)
Definition store_inv (st : Store) : Prop :=
  (∀ i o, orders st !! i = Some o → order_id o = i ∧ (i < next_order_id st)%nat) ∧
  (∀ i j oi oj, orders st !! i = Some oi → orders st !! j = Some oj →
                address oi = address oj → i = j).

(** The two shapes a change of the order table takes: an existing
    order is rewritten in place with its identity kept (or nothing
    changes), or a new order enters under the next id with an address
    nobody holds. *)
Definition rewrites (st st' : Store) : Prop :=
  next_order_id st' = next_order_id st ∧
  (orders st' = orders st ∨
   ∃ i o o', orders st !! i = Some o ∧ same_identity o o' ∧
             orders st' = <[i := o']> (orders st)).

Definition adds (st st' : Store) (o : PaymentOrder) : Prop :=
  orders st' = <[next_order_id st := o]> (orders st) ∧
  order_id o = next_order_id st ∧
  next_order_id st' = S (next_order_id st) ∧
  address_taken (address o) st = false.

(** The ledger and the flags agree: the ledger was asked to credit for an
    order once if its [settlement_applied] is set, and never otherwise. *)
Definition ledger_ok (m : gmap nat PaymentOrder) (l : list Credit) : Prop :=
  ∀ i, credits_for i l =
       match m !! i with
       | Some o => if settlement_applied o then 1%nat else 0%nat
       | None => 0%nat
       end.

(** The credit recorded for an order. *)
Definition credit_of (o : PaymentOrder) : Credit :=
  {| credit_owner := owner_id o; credit_plan := plan o;
     credit_order := order_id o |}.

End Engine.

(** ** Sample inputs *)

Module Samples.

Definition with_status_value (v : Js.value) : Page.UsdtOrder :=
  {| Page.order_id := Js.Num 7; Page.status := v;
     Page.address := Js.Str "TXYZ"; Page.amount_usdt := Js.Str "19.9";
     Page.chain := Js.Str "TRC20"; Page.expires_at := Js.Null |}.

Definition pending_order : Page.UsdtOrder := with_status_value (Js.Str "pending").
Definition paid_order : Page.UsdtOrder := with_status_value (Js.Str "paid").
Definition expired_order : Page.UsdtOrder := with_status_value (Js.Str "expired").

(** A successful envelope, a refusal by the server and a timed-out
    request. *)
Definition ok_reply {D} (d : D) : Page.Outcome D :=
  Page.Fulfilled (Some {| Page.code := Js.Num 1; Page.msg := Js.Str "success";
                          Page.data := Some d |}).

Definition refused {D} : Page.Outcome D :=
  Page.Fulfilled (Some {| Page.code := Js.Num 0; Page.msg := Js.Str "failed";
                          Page.data := None |}).

Definition timed_out {D} : Page.Outcome D := Page.Rejected Js.Undefined.

(** The page after [created], one press on the monthly plan's button
    and the successful creation of a pending order. *)
Definition after_purchase : Page.World :=
  Page.buy_resumed (fun k => k) (ok_reply pending_order)
    (Page.drop_task 1
       (Page.buy (Js.Str "monthly") (Page.created Page.world0))).

(** Two purchases in flight together. *)
Definition two_purchases : Page.World :=
  Page.buy (Js.Str "yearly")
    (Page.buy (Js.Str "monthly") (Page.created Page.world0)).

(** The second one is answered first ... *)
Definition second_answered : Page.World :=
  Page.buy_resumed (fun k => k) (ok_reply paid_order)
    (Page.drop_task 2 two_purchases).

(** ... and then the first. *)
Definition both_answered : Page.World :=
  Page.buy_resumed (fun k => k) (ok_reply pending_order)
    (Page.drop_task 1 second_answered).

(** A page showing a pending order, its refresh request in flight. *)
Definition refreshing : Page.World :=
  Page.refreshUsdtOrder
    (Page.with_vm (Page.set_usdtOrder (Some pending_order)) Page.world0).

(** The catalog that charges what the page's built-in plan table shows. *)
Definition page_prices (p : Engine.PlanId) : Q :=
  Page.price_usd
    (match p with
     | Engine.Monthly => Page.monthly
     | Engine.Yearly => Page.yearly
     | Engine.Lifetime => Page.lifetime
     end (Page.plans Page.data0)).

(** A deployment whose derivation prints the index behind a prefix, with
    1% tolerance, a 30 minute window and one confirmation. *)
Definition cfg : Engine.Config :=
  {| Engine.derive := fun i => Some ("T" +:+ pretty i);
     Engine.tolerance := 1 # 100;
     Engine.fixed_ttl := 1800;
     Engine.required_depth := 1 |}.

(** The scenario of the specification: a monthly order, a transfer of
    19.89 seen at depth 0 and then at depth 1, with a second purchase
    and a price change in between. *)
Definition scenario : list Engine.Op :=
  [ Engine.OpCreate 1 "monthly" 1000;
    Engine.OpCreate 2 "yearly" 1010;
    Engine.OpReconcile 0
      (Engine.Transfers [ {| Engine.amount := 1989 # 100; Engine.tx := "tx1";
                             Engine.confirmations := 0 |} ]) 1020;
    Engine.OpSetPrice Engine.Monthly (2990 # 100);
    Engine.OpReconcile 0
      (Engine.Transfers [ {| Engine.amount := 1989 # 100; Engine.tx := "tx1";
                             Engine.confirmations := 1 |} ]) 1080;
    Engine.OpSettle 0 1090 ].

Definition confirmed_order : Engine.PaymentOrder :=
  {| Engine.order_id := 0; Engine.owner_id := 1; Engine.plan := Engine.Monthly;
     Engine.derivation_index := 0; Engine.address := "T0";
     Engine.expected_amount := 199 # 10; Engine.observed_amount := 1989 # 100;
     Engine.status := Engine.Confirmed; Engine.tx_reference := Some "tx1";
     Engine.created_at := 1000; Engine.expires_at := 2800;
     Engine.confirmed_at := None; Engine.settlement_applied := false |}.

(** The second scenario of the specification: nothing is paid in time,
    the sweeper retires the order, and a transfer arrives afterwards. *)
Definition late_payment : list Engine.Op :=
  [ Engine.OpCreate 1 "monthly" 1000;
    Engine.OpExpire 0 2000;
    Engine.OpExpire 0 2800;
    Engine.OpReconcile 0
      (Engine.Transfers [ {| Engine.amount := 1990 # 100; Engine.tx := "tx9";
                             Engine.confirmations := 3 |} ]) 2900 ].

Definition dead_answers : list (Page.Outcome Page.UsdtOrder) :=
  [ok_reply expired_order; ok_reply expired_order; ok_reply expired_order].

End Samples.

(** ** The rest of the billing page *)

Module Checkout.

(** *** The QR code *)

(** The characters [encodeURIComponent] leaves alone: ASCII letters and
    digits and the marks [- _ . ! ~ * ' ( )]. *)
Definition uri_unreserved (c : ascii) : bool :=
  let n := N_of_ascii c in
  ((48 <=? n) && (n <=? 57) || (65 <=? n) && (n <=? 90)
   || (97 <=? n) && (n <=? 122))%N
  || bool_decide (c ∈ ["-"; "_"; "."; "!"; "~"; "*"; "'"; "("; ")"]%char).

Definition hex_digit (n : N) : ascii :=
  match n with
  | 0 => "0" | 1 => "1" | 2 => "2" | 3 => "3" | 4 => "4" | 5 => "5"
  | 6 => "6" | 7 => "7" | 8 => "8" | 9 => "9" | 10 => "A" | 11 => "B"
  | 12 => "C" | 13 => "D" | 14 => "E" | _ => "F"
  end%char%N.

(** [%XY], the escape of one byte, in upper-case hexadecimal. *)
Definition percent_escape (c : ascii) : string :=
  String "%" (String (hex_digit (N_of_ascii c / 16))
                (String (hex_digit (N_of_ascii c mod 16)) "")).

(** [encodeURIComponent (s)]. A string is held as the bytes of its UTF-8
    encoding, which is what the function escapes: every byte that is not
    an unreserved character becomes [%XY]. (A lone surrogate, on which the
    function throws, has no such encoding and is no value of the type.) *)
Fixpoint encodeURIComponent (s : string) : string :=
  match s with
  | EmptyString => ""
  | String c r =>
      if uri_unreserved c then String c (encodeURIComponent r)
      else percent_escape c +:+ encodeURIComponent r
  end.

Definition hex_value (c : ascii) : option N :=
  let n := N_of_ascii c in
  if ((48 <=? n) && (n <=? 57))%N then Some (n - 48)%N
  else if ((65 <=? n) && (n <=? 70))%N then Some (n - 55)%N
  else if ((97 <=? n) && (n <=? 102))%N then Some (n - 87)%N
  else None.

(** The reading of [%XY] escapes back into bytes, by which a receiver
    recovers the text from the URL; anything that is not an escape is kept. *)
Fixpoint percent_decode (s : string) : string :=
  match s with
  | EmptyString => ""
  | String c r =>
      match r with
      | String a (String b r') =>
          match hex_value a, hex_value b with
          | Some x, Some y =>
              if Ascii.eqb c "%" then
                String (ascii_of_N (16 * x + y)) (percent_decode r')
              else String c (percent_decode r)
          | _, _ => String c (percent_decode r)
          end
      | _ => String c (percent_decode r)
      end
  end.

(** Does every character of [s] pass [p]? *)
Fixpoint all_chars (p : ascii → bool) (s : string) : bool :=
  match s with
  | EmptyString => true
  | String c r => p c && all_chars p r
  end.

(** What an encoded component consists of. *)
Definition uri_safe (c : ascii) : bool := uri_unreserved c || Ascii.eqb c "%".

Definition qr_service : string :=
  "https://api.qrserver.com/v1/create-qr-code/?size=220x220&data=".

(** The computed property [usdtQrUrl]. *)
Definition usdtQrUrl (o : option Page.UsdtOrder) : string :=
  let text := Page.getUsdtQrText o in
  if Js.truthy text then qr_service +:+ encodeURIComponent (Js.to_string text)
  else "".

(** *** The step indicator of the template *)

(** One rendered [step-item]: its label, the classes [active] and
    [current], whether the [dot-pulse] is rendered, and the [step-line]
    after it ([None] when there is none, otherwise whether it is
    [filled]). *)
Record StepItem : Type := mkStepItem {
  label : string;
  active : bool;
  current : bool;
  pulse : bool;
  line : option bool
}.

(** The [v-for] over [stepItems], rendered for the displayed order. *)
Definition checkout_steps (t : string → string) (o : Page.UsdtOrder)
  : list StepItem :=
  let items := Page.stepItems t in
  let cur := Page.usdtStepCurrent (Some o) in
  imap (fun idx step =>
          {| label := step;
             active := (idx <=? cur)%nat;
             current := (idx =? cur)%nat;
             pulse := (idx =? cur)%nat
                      && Js.strict_eq (Page.status o) (Js.Str "pending");
             line := if (idx <? length items - 1)%nat
                     then Some (idx <? cur)%nat else None |})
       items.

(** *** What holds of every world the page can reach *)

(** The busy flags ([loading], a truthy [purchasing], [usdtRefreshing])
    and the suspended methods. *)
Definition busy_view (w : Page.World) : bool * bool * bool * list Page.Task :=
  (Page.loading (Page.vm w), Js.truthy (Page.purchasing (Page.vm w)),
   Page.usdtRefreshing (Page.vm w), Page.inflight w).

(** A busy flag is raised only while a request that will lower it is in
    flight. *)
Definition busy_ok (v : bool * bool * bool * list Page.Task) : Prop :=
  let '(l, p, r, tasks) := v in
  (l = true → ∃ b, Page.AwaitPlans b ∈ tasks) ∧
  (p = true → Page.AwaitCreate ∈ tasks) ∧
  (r = true → Page.AwaitOrder ∈ tasks ∨ Page.AwaitPlans true ∈ tasks).

Definition busy_inv (w : Page.World) : Prop := busy_ok (busy_view w).

(** Polling goes on only behind an open modal, and the modal is open only
    on an order. *)
Definition shown_inv (w : Page.World) : Prop :=
  (is_Some (Page.usdtPollingTimer (Page.vm w)) →
   Page.usdtModalVisible (Page.vm w) = true) ∧
  (Page.usdtModalVisible (Page.vm w) = true →
   is_Some (Page.usdtOrder (Page.vm w))).

(** The three requests the page sends. *)
Definition page_request (r : Api.Request) : Prop :=
  r = Api.getMembershipPlans ∨
  (∃ plan, r = Api.createUsdtOrder plan) ∨
  (∃ id, r = Api.getUsdtOrder id (Js.Bool true)).

End Checkout.

(** ** Further sample inputs *)

Module MoreSamples.

(** An order whose address carries characters that mean something in a
    query string. *)
Definition odd_address_order : Page.UsdtOrder :=
  {| Page.order_id := Js.Num 8; Page.status := Js.Str "pending";
     Page.address := Js.Str "T1&data=x y"; Page.amount_usdt := Js.Str "199";
     Page.chain := Js.Str "TRC20"; Page.expires_at := Js.Null |}.

(** An order that came back without an id. *)
Definition idless_order : Page.UsdtOrder :=
  {| Page.order_id := Js.Null; Page.status := Js.Str "pending";
     Page.address := Js.Str "TXYZ"; Page.amount_usdt := Js.Str "19.9";
     Page.chain := Js.Str "TRC20"; Page.expires_at := Js.Null |}.

(** The page polling for it. *)
Definition after_idless_purchase : Page.World :=
  Page.buy_resumed (fun k => k) (Samples.ok_reply idless_order)
    (Page.drop_task 1
       (Page.buy (Js.Str "monthly") (Page.created Page.world0))).

(** An order that came back with the id [0]. *)
Definition zero_id_order : Page.UsdtOrder :=
  {| Page.order_id := Js.Num 0; Page.status := Js.Str "pending";
     Page.address := Js.Str "TXYZ"; Page.amount_usdt := Js.Str "19.9";
     Page.chain := Js.Str "TRC20"; Page.expires_at := Js.Null |}.

(** The page displaying it after a purchase. *)
Definition after_zero_id_purchase : Page.World :=
  Page.buy_resumed (fun k => k) (Samples.ok_reply zero_id_order)
    (Page.drop_task 1
       (Page.buy (Js.Str "monthly") (Page.created Page.world0))).

(** The page of [Samples.after_purchase] once its interval has fired. *)
Definition polled : Page.World := Page.refreshUsdtOrder Samples.after_purchase.

Definition confirmed_order : Page.UsdtOrder :=
  Samples.with_status_value (Js.Str "confirmed").

(** One purchase in flight on the freshly created page. *)
Definition purchasing_monthly : Page.World :=
  Page.buy (Js.Str "monthly") (Page.created Page.world0).

(** The first step item as rendered for an expired order. *)
Definition expired_first_step : Checkout.StepItem :=
  {| Checkout.label := "billing.usdt.status.pending";
     Checkout.active := true; Checkout.current := true;
     Checkout.pulse := false; Checkout.line := Some false |}.

End MoreSamples.

(** * Worked examples *)

Section Examples.

Example getUsdtOrder_url :
  Api.url (Api.getUsdtOrder (Js.Num 42) Js.Undefined) = "/api/billing/usdt/order/42".
Proof. reflexivity. Qed.

Example statusText_expired :
  Page.statusText (fun k => k) (Some Samples.expired_order)
  = Js.Own "billing.usdt.status.expired".
Proof. reflexivity. Qed.

Example statusText_missing_order : Page.statusText (fun k => k) None = Js.Own "--".
Proof. reflexivity. Qed.

Example statusText_inherited :
  Page.statusText (fun k => k) (Some (Samples.with_status_value (Js.Str "constructor")))
  = Js.Inherited "constructor".
Proof. reflexivity. Qed.

Example statusColor_numeric_status :
  Page.statusColor (Some (Samples.with_status_value (Js.Num 1))) = "orange".
Proof. reflexivity. Qed.

Example after_purchase_polls :
  Page.usdtPollingTimer (Page.vm Samples.after_purchase) = Some 1%nat ∧
  Page.intervals Samples.after_purchase = {[ 1%nat := Page.polling ]} ∧
  Page.usdtModalVisible (Page.vm Samples.after_purchase) = true.
Proof. split_and!; reflexivity. Qed.

(** A confirmed answer, then the answer to the inner [load ()]: the
    interval is gone. *)
Example confirmed_stops_polling :
  (w ← Page.run (fun k => k) Samples.after_purchase
         [ Page.Tick 1;
           Page.Answered 1 (Page.OrderReply
             (Samples.ok_reply (Samples.with_status_value (Js.Str "confirmed"))));
           Page.Answered 1 (Page.PlansReply Samples.timed_out) ];
   Some (Page.intervals w, Page.usdtPollingTimer (Page.vm w)))
  = Some (∅, None).
Proof. reflexivity. Qed.

(** The first scenario of the specification. *)
Example scenario_outcome :
  (o ← Engine.orders (Engine.exec Samples.cfg
                        (Engine.empty_store Samples.page_prices)
                        Samples.scenario) !! 0%nat;
   Some (Engine.status o, Engine.expected_amount o, Engine.tx_reference o,
         Engine.confirmed_at o, Engine.settlement_applied o))
  = Some (Engine.Confirmed, 199 # 10, Some "tx1", Some 1080%nat, true) ∧
  Engine.ledger (Engine.exec Samples.cfg (Engine.empty_store Samples.page_prices)
                   Samples.scenario)
  = [ {| Engine.credit_owner := 1; Engine.credit_plan := Engine.Monthly;
         Engine.credit_order := 0 |} ].
Proof. split; vm_compute; reflexivity. Qed.

Example late_payment_outcome :
  Engine.status <$> Engine.orders
    (Engine.exec Samples.cfg (Engine.empty_store Samples.page_prices)
       Samples.late_payment) !! 0%nat
  = Some Engine.Expired ∧
  Engine.status <$> Engine.orders
    (Engine.exec Samples.cfg (Engine.empty_store Samples.page_prices)
       (take 2 Samples.late_payment)) !! 0%nat
  = Some Engine.Pending.
Proof. split; vm_compute; reflexivity. Qed.

Example usdtQrUrl_odd_address :
  Checkout.usdtQrUrl (Some MoreSamples.odd_address_order)
  = "https://api.qrserver.com/v1/create-qr-code/?size=220x220&data=T1%26data%3Dx%20y".
Proof. reflexivity. Qed.

End Examples.

(** * Properties of the client *)

Section JsFacts.

Lemma pretty_N_go_numeric_head (x : N) (s : string) :
  Js.numeric_head s = true → Js.numeric_head (pretty_N_go x s) = true.
Proof.
  revert s. induction (N.lt_wf_0 x) as [x _ IH]; intros s Hs.
  destruct (decide (x = 0)%N) as [->|Hx].
  - by rewrite pretty_N_go_0.
  - rewrite pretty_N_go_step by lia. apply IH.
    + apply N.div_lt; lia.
    + unfold pretty_N_char. by repeat case_match.
Qed.

Lemma pretty_Z_numeric_head (n : Z) : Js.numeric_head (pretty n) = true.
Proof.
  destruct n as [|p|p]; [done| |done].
  unfold pretty, pretty_Z, pretty, pretty_positive, pretty, pretty_N.
  case_decide; [done|]. by apply pretty_N_go_numeric_head.
Qed.

(** A status word (non-empty, not starting like a number, not a printed
    boolean) is what [status_string] computes exactly when the order's
    [status] field is that very string. *)
Lemma status_string_word (o : Page.UsdtOrder) (s : string) :
  s ≠ "" → s ≠ "true" → Js.numeric_head s = false →
  Page.status_string (Some o) = s ↔ Page.status o = Js.Str s.
Proof.
  intros Hne Htrue Hhead. unfold Page.status_string.
  destruct (Page.status o) as [| |[|]|n|s'] eqn:E; simpl;
    try (split; [congruence | discriminate]).
  - destruct (n =? 0); simpl; [split; [congruence | discriminate]|].
    split; [|discriminate]. intros <-.
    by rewrite pretty_Z_numeric_head in Hhead.
  - destruct (String.eqb_spec s' ""); simpl.
    + split; [congruence|]. intros [= ->]. congruence.
    + split; [by intros ->|]. by intros [= ->].
Qed.

Lemma status_string_none : Page.status_string None = "".
Proof. reflexivity. Qed.

End JsFacts.


Ltac status_word :=
  apply status_string_word; [discriminate | discriminate | reflexivity].

Section Computed.

Import Page.

Lemma usdtStepCurrent_cases (o : option UsdtOrder) :
  usdtStepCurrent o =
    if decide (status_string o = "confirmed") then 2%nat
    else if decide (status_string o = "paid") then 1%nat else 0%nat.
Proof.
  unfold usdtStepCurrent.
  destruct (String.eqb_spec (status_string o) "confirmed");
    destruct (String.eqb_spec (status_string o) "paid");
    repeat case_decide; congruence.
Qed.

(** C10. The step indicator is a total function of the displayed order:
    step 2 exactly for status [confirmed], step 1 exactly for [paid], and
    step 0 for everything else: a missing order, a missing or empty
    status, and every other status value, among them the terminal
    [expired], [cancelled] and [failed], which therefore sit at the same
    step as a fresh [pending] order. *)
Theorem usdtStepCurrent_total :
  (∀ o, usdtStepCurrent (Some o) = 2%nat ↔ status o = Js.Str "confirmed") ∧
  (∀ o, usdtStepCurrent (Some o) = 1%nat ↔ status o = Js.Str "paid") ∧
  (∀ o, status o ≠ Js.Str "confirmed" → status o ≠ Js.Str "paid" →
        usdtStepCurrent (Some o) = 0%nat) ∧
  usdtStepCurrent None = 0%nat ∧
  (∀ o s, s ∈ [Engine.Pending; Engine.Expired; Engine.Cancelled; Engine.Failed] →
          status o = Js.Str (Engine.status_name s) →
          usdtStepCurrent (Some o) = 0%nat) ∧
  (∀ o, usdtStepCurrent o = 0%nat ∨ usdtStepCurrent o = 1%nat
        ∨ usdtStepCurrent o = 2%nat).
Proof.
  assert (Hc : ∀ o, status_string (Some o) = "confirmed"
                    ↔ status o = Js.Str "confirmed") by (intros; status_word).
  assert (Hp : ∀ o, status_string (Some o) = "paid"
                    ↔ status o = Js.Str "paid") by (intros; status_word).
  assert (H0 : ∀ o, status o ≠ Js.Str "confirmed" → status o ≠ Js.Str "paid" →
                    usdtStepCurrent (Some o) = 0%nat).
  { intros o H1 H2. rewrite usdtStepCurrent_cases.
    repeat case_decide; [by apply Hc in H | by apply Hp in H0 | done]. }
  split_and!.
  - intros o. rewrite usdtStepCurrent_cases, <- Hc.
    repeat case_decide; split; congruence.
  - intros o. rewrite usdtStepCurrent_cases, <- Hp.
    repeat case_decide; split; congruence.
  - exact H0.
  - reflexivity.
  - intros o s Hs E. apply H0; rewrite E;
      set_unfold; destruct Hs as [->|[->|[->|[->|[]]]]]; discriminate.
  - intros o. rewrite usdtStepCurrent_cases. repeat case_decide; auto.
Qed.

Lemma usdtStepCurrent_total_witness :
  usdtStepCurrent (Some (Samples.with_status_value (Js.Str "expired"))) = 0%nat ∧
  usdtStepCurrent (Some (Samples.with_status_value (Js.Str "pending"))) = 0%nat ∧
  usdtStepCurrent (Some (Samples.with_status_value (Js.Num 3))) = 0%nat.
Proof.
  destruct usdtStepCurrent_total as (_ & _ & Hother & _ & Hdead & _).
  split; [|split].
  - apply (Hdead _ Engine.Expired); [set_solver | reflexivity].
  - apply (Hdead _ Engine.Pending); [set_solver | reflexivity].
  - apply Hother; discriminate.
Defined.


Section Labels.

Variable t : string → string.





End Labels.

End Computed.

(** ** The asynchronous methods *)

Section Flow.

Import Page.

Variable t : string → string.

Lemma lookup_snoc_length {A} (l : list A) (x : A) :
  (l ++ [x])%list !! length l = Some x.
Proof. by rewrite lookup_app_r, Nat.sub_diag. Qed.

Lemma delete_snoc_length {A} (l : list A) (x : A) :
  delete (length l) (l ++ [x])%list = l.
Proof.
  induction l as [|y l IH]; [done|]. simpl. by rewrite IH.
Qed.

(** A press on a copy button leaves the world as it is or adds one
    message to it. *)
Lemma step_copy (w w' : World) (th : bool) (b : CopyButton) :
  step t w (ClickCopy th b) = Some w' → w' = w ∨ ∃ m, w' = toast m w.
Proof.
  cbn [step]. destruct (usdtOrder (vm w)) as [o|]; [|done].
  intros [= <-]. unfold copyText.
  destruct (String.eqb _ ""); [by left|]. destruct th; right; by eexists.
Qed.

(** C5. [getUsdtOrder (id, r)] is a GET of
    [/api/billing/usdt/order/<id>] whose only query parameter is
    [refresh], [1] for [true] and [0] for [false], [true] being the
    default. A refresh of the displayed order, from the button or from
    the interval, sends exactly one such request with [refresh = 1] when
    the order's id is truthy; when it is falsy ([undefined], [null],
    [false], [0] or the empty string), or when no order is displayed,
    the guard returns and the refresh sends nothing and changes
    nothing. A refresh never sends anything but one such request. *)
Theorem refresh_requests_one_pass :
  (∀ id, Js.exact id = true →
     Api.getUsdtOrder id (Js.Bool true) =
       {| Api.url := "/api/billing/usdt/order/" +:+ Js.to_string id;
          Api.meth := Api.GET;
          Api.params := [("refresh", Js.Num 1)]; Api.data := [] |}) ∧
  (∀ id, Js.exact id = true →
     Api.getUsdtOrder id (Js.Bool false) =
       {| Api.url := "/api/billing/usdt/order/" +:+ Js.to_string id;
          Api.meth := Api.GET;
          Api.params := [("refresh", Js.Num 0)]; Api.data := [] |}) ∧
  (∀ id, Api.getUsdtOrder id Js.Undefined = Api.getUsdtOrder id (Js.Bool true)) ∧
  (∀ w o, usdtOrder (vm w) = Some o → Js.truthy (order_id o) = true →
     Js.exact (order_id o) = true →
     step t w ClickRefresh = Some (refreshUsdtOrder w) ∧
     sent (refreshUsdtOrder w) =
       (sent w ++
        [ {| Api.url := "/api/billing/usdt/order/" +:+ Js.to_string (order_id o);
             Api.meth := Api.GET;
             Api.params := [("refresh", Js.Num 1)]; Api.data := [] |} ])%list ∧
     inflight (refreshUsdtOrder w) = (inflight w ++ [AwaitOrder])%list) ∧
  (∀ w o, usdtOrder (vm w) = Some o → Js.truthy (order_id o) = false →
     step t w ClickRefresh = Some w ∧ refreshUsdtOrder w = w) ∧
  (∀ w, usdtOrder (vm w) = None →
     step t w ClickRefresh = Some w ∧ refreshUsdtOrder w = w) ∧
  (∀ v, Js.truthy v = false ↔
        v ∈ [Js.Undefined; Js.Null; Js.Bool false; Js.Num 0; Js.Str ""]) ∧
  (∀ w h, is_Some (intervals w !! h) →
     step t w (Tick h) = Some (refreshUsdtOrder w)) ∧
  (∀ w, sent (refreshUsdtOrder w) = sent w ∨
        ∃ o, usdtOrder (vm w) = Some o ∧ Js.truthy (order_id o) = true ∧
             sent (refreshUsdtOrder w) =
               (sent w ++ [Api.getUsdtOrder (order_id o) (Js.Bool true)])%list).
Proof.
  split_and!; try done.
  - intros w o Ho Hid _. split; [reflexivity|].
    unfold refreshUsdtOrder. rewrite Ho, Hid. split; reflexivity.
  - intros w o Ho Hid. cbn [step]. unfold refreshUsdtOrder. by rewrite Ho, Hid.
  - intros w Ho. cbn [step]. unfold refreshUsdtOrder. by rewrite Ho.
  - intros v. split.
    + destruct v as [| |[|]|n|s]; simpl; try discriminate; try set_solver.
      * destruct (Z.eqb_spec n 0) as [->|]; [set_solver | discriminate].
      * destruct (String.eqb_spec s "") as [->|]; [set_solver | discriminate].
    + intros Hv. set_unfold. by destruct Hv as [->|[->|[->|[->|[->|[]]]]]].
  - intros w h [[p []] Hh]. simpl. by rewrite Hh.
  - intros w. unfold refreshUsdtOrder.
    destruct (usdtOrder (vm w)) as [o|]; [|by left].
    destruct (Js.truthy (order_id o)) eqn:Hid; [right; by exists o|by left].
Qed.

Lemma step_settle_order (w : World) (i : nat) (out : Outcome UsdtOrder) :
  inflight w !! i = Some AwaitOrder →
  step t w (Answered i (OrderReply out))
  = Some (refreshUsdtOrder_resumed t out (drop_task i w)).
Proof. intros H. simpl. by rewrite H. Qed.

Lemma step_settle_create (w : World) (i : nat) (out : Outcome UsdtOrder) :
  inflight w !! i = Some AwaitCreate →
  step t w (Answered i (OrderReply out)) = Some (buy_resumed t out (drop_task i w)).
Proof. intros H. simpl. by rewrite H. Qed.

Lemma step_tick (w : World) (h : nat) :
  intervals w !! h = Some polling → step t w (Tick h) = Some (refreshUsdtOrder w).
Proof. intros H. simpl. by rewrite H. Qed.

Lemma refresh_resumed_order (out : Outcome UsdtOrder) (w : World) :
  usdtOrder (vm (refreshUsdtOrder_resumed t out w))
  = match accepted out with Some d => Some d | None => usdtOrder (vm w) end.
Proof.
  unfold refreshUsdtOrder_resumed.
  destruct (accepted out) as [d|]; [|done].
  by destruct (Js.strict_eq (status d) (Js.Str "confirmed")).
Qed.

(** C3. When the request of a refresh is rejected (an error, a timeout)
    or is answered by anything but a successful envelope, the method
    still completes: the displayed order, the modal and the polling
    timer are what they were, no error is shown, and only the refreshing
    flag is cleared. A successful answer replaces the displayed order by
    the returned one, and nothing else ever replaces it on a refresh. On
    the engine's side, [RefreshOrder] of an existing order whose oracle
    call timed out succeeds with the persisted order and leaves the store
    as it is. *)
Theorem failed_refresh_keeps_order :
  (∀ w i out, inflight w !! i = Some AwaitOrder → accepted out = None →
     ∃ w', step t w (Answered i (OrderReply out)) = Some w' ∧
           usdtOrder (vm w') = usdtOrder (vm w) ∧
           usdtModalVisible (vm w') = usdtModalVisible (vm w) ∧
           usdtPollingTimer (vm w') = usdtPollingTimer (vm w) ∧
           intervals w' = intervals w ∧
           toasts w' = toasts w ∧
           sent w' = sent w ∧
           usdtRefreshing (vm w') = false) ∧
  (∀ e, accepted (Rejected e : Outcome UsdtOrder) = None) ∧
  accepted (Fulfilled None : Outcome UsdtOrder) = None ∧
  (∀ w i out d, inflight w !! i = Some AwaitOrder → accepted out = Some d →
     ∃ w', step t w (Answered i (OrderReply out)) = Some w' ∧
           usdtOrder (vm w') = Some d) ∧
  (∀ w i out w', inflight w !! i = Some AwaitOrder →
     step t w (Answered i (OrderReply out)) = Some w' →
     usdtOrder (vm w') ≠ usdtOrder (vm w) →
     ∃ d, accepted out = Some d ∧ usdtOrder (vm w') = Some d) ∧
  (∀ cfg id now st o, Engine.orders st !! id = Some o →
     Engine.RefreshOrder cfg id Engine.Retryable now st = (st, inr o)).
Proof.
  split_and!; try done.
  - intros w i out Hi Hout. eexists. split; [by apply step_settle_order|].
    unfold refreshUsdtOrder_resumed. rewrite Hout. done.
  - intros w i out d Hi Hout. eexists. split; [by apply step_settle_order|].
    by rewrite refresh_resumed_order, Hout.
  - intros w i out w' Hi Hstep Hne.
    rewrite step_settle_order in Hstep by done. injection Hstep as <-.
    rewrite refresh_resumed_order in Hne |- *.
    destruct (accepted out) as [d|]; [by exists d | done].
  - intros cfg id now st o Ho. unfold Engine.RefreshOrder. rewrite Ho.
    unfold Engine.Reconcile. rewrite Ho. unfold Engine.GetOrder. by rewrite Ho.
Qed.

(** *** The polling timer *)

Lemma timer_inv_view (w w' : World) :
  timer_view w' = timer_view w → timer_inv w → timer_inv w'.
Proof. unfold timer_view, timer_inv. intros [= -> -> ->]. done. Qed.

Lemma view_load b w : timer_view (load b w) = timer_view w.
Proof. reflexivity. Qed.

Lemma view_load_resumed out w : timer_view (load_resumed out w) = timer_view w.
Proof. unfold load_resumed. by destruct (accepted out). Qed.

Lemma view_refresh w : timer_view (refreshUsdtOrder w) = timer_view w.
Proof.
  unfold refreshUsdtOrder. destruct (usdtOrder (vm w)) as [o|]; [|done].
  by destruct (Js.truthy (order_id o)).
Qed.

Lemma view_refresh_resumed out w :
  timer_view (refreshUsdtOrder_resumed t out w) = timer_view w.
Proof.
  unfold refreshUsdtOrder_resumed. destruct (accepted out) as [d|]; [|done].
  by destruct (Js.strict_eq (status d) (Js.Str "confirmed")).
Qed.

Lemma view_buy plan w : timer_view (buy plan w) = timer_view w.
Proof. reflexivity. Qed.

Lemma view_drop_task i w : timer_view (drop_task i w) = timer_view w.
Proof. reflexivity. Qed.

Lemma stopUsdtPolling_inv (w : World) :
  timer_inv w →
  timer_inv (stopUsdtPolling w) ∧
  usdtPollingTimer (vm (stopUsdtPolling w)) = None ∧
  intervals (stopUsdtPolling w) = ∅ ∧
  next_handle (stopUsdtPolling w) = next_handle w.
Proof.
  unfold timer_inv, stopUsdtPolling. intros [Hn Hw].
  destruct (usdtPollingTimer (vm w)) as [h|] eqn:Eh.
  - destruct Hw as [Hh Hi]. destruct (Nat.eqb_spec h 0); [done|].
    simpl. rewrite Hi, delete_singleton_eq. done.
  - rewrite Eh. done.
Qed.

Lemma startUsdtPolling_inv (w : World) :
  timer_inv w →
  timer_inv (startUsdtPolling w) ∧
  usdtPollingTimer (vm (startUsdtPolling w)) = Some (next_handle w) ∧
  intervals (startUsdtPolling w) = {[ next_handle w := polling ]}.
Proof.
  intros Hw. destruct (stopUsdtPolling_inv w Hw) as ([Hn _] & Ht & Hi & Hh).
  unfold startUsdtPolling, setInterval, timer_inv. simpl.
  rewrite Hi, Hh in *. rewrite insert_empty.
  split_and!; try done; lia.
Qed.

Lemma buy_resumed_inv out w : timer_inv w → timer_inv (buy_resumed t out w).
Proof.
  intros Hw. unfold buy_resumed. destruct (accepted out) as [d|].
  - eapply timer_inv_view; [|apply startUsdtPolling_inv]; [reflexivity|].
    eapply timer_inv_view; [|exact Hw]. reflexivity.
  - eapply timer_inv_view; [|exact Hw]. reflexivity.
Qed.

Lemma step_timer_inv (w w' : World) (e : Event) :
  timer_inv w → step t w e = Some w' → timer_inv w'.
Proof.
  intros Hw Hstep.
  destruct e as [plan| | | |h|i r|th txt];
    [..|by destruct (step_copy _ _ _ _ Hstep) as [->|[m ->]]];
    simpl in Hstep.
  - injection Hstep as <-. by eapply timer_inv_view; [apply view_buy|].
  - injection Hstep as <-. by eapply timer_inv_view; [apply view_refresh|].
  - injection Hstep as <-. apply stopUsdtPolling_inv.
    eapply timer_inv_view; [|exact Hw]. reflexivity.
  - injection Hstep as <-. by apply stopUsdtPolling_inv.
  - destruct (intervals w !! h) as [[p []]|]; [|done].
    injection Hstep as <-. by eapply timer_inv_view; [apply view_refresh|].
  - destruct (inflight w !! i) as [k|]; [|done].
    assert (Hd : timer_inv (drop_task i w))
      by (eapply timer_inv_view; [apply view_drop_task | exact Hw]).
    destruct k as [[|]| |], r as [out|out]; simpl in Hstep; try done;
      injection Hstep as <-.
    + apply stopUsdtPolling_inv.
      by eapply timer_inv_view; [apply view_load_resumed|].
    + by eapply timer_inv_view; [apply view_load_resumed|].
    + by apply buy_resumed_inv.
    + by eapply timer_inv_view; [apply view_refresh_resumed|].
Qed.

Lemma run_timer_inv (es : list Event) (w w' : World) :
  timer_inv w → run t w es = Some w' → timer_inv w'.
Proof.
  revert w. induction es as [|e es IH]; intros w Hw Hrun; simpl in Hrun.
  - by injection Hrun as <-.
  - destruct (step t w e) as [w1|] eqn:E; [|done].
    eapply IH; [|exact Hrun]. by eapply step_timer_inv.
Qed.

Lemma timer_inv_created : timer_inv (created world0).
Proof. split; [simpl; lia | reflexivity]. Qed.

Lemma reachable_timer_inv (w : World) : reachable t w → timer_inv w.
Proof. intros [es Hes]. eapply run_timer_inv; [apply timer_inv_created | done]. Qed.

Lemma timer_inv_size (w : World) :
  timer_inv w →
  size (intervals w)
  = match usdtPollingTimer (vm w) with Some _ => 1%nat | None => 0%nat end.
Proof.
  intros [_ Hw]. destruct (usdtPollingTimer (vm w)) as [h|].
  - destruct Hw as [_ ->]. apply map_size_singleton.
  - rewrite Hw. apply map_size_empty.
Qed.

Lemma startUsdtPolling_keeps (w : World) :
  usdtOrder (vm (startUsdtPolling w)) = usdtOrder (vm w) ∧
  usdtModalVisible (vm (startUsdtPolling w)) = usdtModalVisible (vm w) ∧
  sent (startUsdtPolling w) = sent w.
Proof.
  unfold startUsdtPolling, stopUsdtPolling.
  destruct (usdtPollingTimer (vm w)) as [h|]; [|done].
  by destruct (h =? 0)%nat.
Qed.

Lemma buy_resumed_accepted (out : Outcome UsdtOrder) (d : UsdtOrder) (w : World) :
  timer_inv w → accepted out = Some d →
  usdtOrder (vm (buy_resumed t out w)) = Some d ∧
  usdtModalVisible (vm (buy_resumed t out w)) = true ∧
  usdtPollingTimer (vm (buy_resumed t out w)) = Some (next_handle w) ∧
  intervals (buy_resumed t out w) = {[ next_handle w := polling ]} ∧
  sent (buy_resumed t out w) = sent w.
Proof.
  intros Hw Hout. unfold buy_resumed. rewrite Hout.
  set (w1 := with_vm (set_usdtModalVisible true)
               (with_vm (set_usdtOrder (Some d)) w)).
  assert (H1 : timer_inv w1) by (eapply timer_inv_view; [|exact Hw]; done).
  destruct (startUsdtPolling_inv w1 H1) as (_ & Ht & Hi).
  destruct (startUsdtPolling_keeps w1) as (Ho & Hm & Hs).
  cbn [vm with_vm set_purchasing usdtOrder usdtModalVisible usdtPollingTimer
       intervals sent].
  rewrite Ht, Hi, Ho, Hm, Hs. done.
Qed.

(** C9. [startUsdtPolling] is [stopUsdtPolling] followed by one
    [setInterval]; [stopUsdtPolling] clears the interval and nulls the
    handle. Hence in every world the page can reach by any sequence of
    purchases, refreshes, ticks, replies, closes and teardowns, the
    handle is non-null exactly when one interval is scheduled, it is
    that interval's handle, and never more than one interval exists; in
    particular, when two purchases are in flight together and both
    succeed, one interval remains, polling for the order that answered
    last. *)
Theorem one_polling_timer :
  (∀ w, startUsdtPolling w =
          let '(h, w') := setInterval CallRefreshUsdtOrder 5000 (stopUsdtPolling w) in
          with_vm (set_usdtPollingTimer (Some h)) w') ∧
  (∀ w, timer_inv w →
        usdtPollingTimer (vm (stopUsdtPolling w)) = None ∧
        intervals (stopUsdtPolling w) = ∅) ∧
  (∀ w es w', timer_inv w → run t w es = Some w' → timer_inv w') ∧
  (∀ w, reachable t w →
        (size (intervals w) ≤ 1)%nat ∧
        (is_Some (usdtPollingTimer (vm w)) ↔ size (intervals w) = 1%nat) ∧
        (∀ h, usdtPollingTimer (vm w) = Some h ↔ intervals w !! h = Some polling) ∧
        (∀ h, is_Some (intervals w !! h) → usdtPollingTimer (vm w) = Some h)) ∧
  (∀ w i j out1 out2 d1 d2 w1 w2, reachable t w →
     inflight w !! i = Some AwaitCreate → accepted out1 = Some d1 →
     step t w (Answered i (OrderReply out1)) = Some w1 →
     inflight w1 !! j = Some AwaitCreate → accepted out2 = Some d2 →
     step t w1 (Answered j (OrderReply out2)) = Some w2 →
     size (intervals w1) = 1%nat ∧ size (intervals w2) = 1%nat ∧
     usdtOrder (vm w2) = Some d2).
Proof.
  split_and!.
  - done.
  - intros w Hw. by destruct (stopUsdtPolling_inv w Hw) as (_ & ? & ? & _).
  - intros w es w'. apply run_timer_inv.
  - intros w Hw. apply reachable_timer_inv in Hw.
    pose proof (timer_inv_size w Hw) as Hsz. destruct Hw as [_ Hw].
    destruct (usdtPollingTimer (vm w)) as [h|].
    + destruct Hw as [Hh Hi]. rewrite Hsz. split_and!; [lia|done|..].
      * intros h'. rewrite Hi. split.
        -- intros [= ->]. apply lookup_singleton_eq.
        -- intros [-> _]%lookup_singleton_Some. done.
      * intros h' [x Hx]. rewrite Hi in Hx.
        by apply lookup_singleton_Some in Hx as [-> _].
    + rewrite Hsz, Hw. split_and!; [lia| |..].
      * split; [by intros [? ?]|done].
      * intros h. by rewrite lookup_empty.
      * intros h [x Hx]. by rewrite lookup_empty in Hx.
  - intros w i j out1 out2 d1 d2 w1 w2 Hw Hi H1 Hs1 Hj H2 Hs2.
    apply reachable_timer_inv in Hw.
    assert (Hw1 : timer_inv w1) by (by eapply step_timer_inv).
    rewrite step_settle_create in Hs1 by done. injection Hs1 as <-.
    rewrite step_settle_create in Hs2 by done. injection Hs2 as <-.
    destruct (buy_resumed_accepted out1 d1 (drop_task i w))
      as (_ & _ & _ & Hi1 & _); [done..|].
    destruct (buy_resumed_accepted out2 d2
                (drop_task j (buy_resumed t out1 (drop_task i w))))
      as (Ho & _ & _ & Hi2 & _); [done..|].
    rewrite Hi1, Hi2, !map_size_singleton. done.
Qed.

(** C6. A purchase posts the plan to [/api/billing/usdt/create] and
    shows nothing yet. When the answer is a successful envelope, the
    returned order becomes the displayed one (with its address and
    amount), the modal opens, and exactly one interval of 5000 ms is
    scheduled whose callback refreshes the displayed order: a tick sends
    the refresh request for the returned order's id. When the answer is
    anything else, the displayed order, the modal and the intervals are
    what they were before: no order is shown by this purchase and no
    polling starts. *)
Theorem purchase_flow :
  (∀ w plan,
     step t w (ClickBuy plan) = Some (buy plan w) ∧
     sent (buy plan w) =
       (sent w ++ [ {| Api.url := "/api/billing/usdt/create";
                       Api.meth := Api.POST; Api.params := [];
                       Api.data := [("plan", plan)] |} ])%list ∧
     inflight (buy plan w) = (inflight w ++ [AwaitCreate])%list ∧
     usdtOrder (vm (buy plan w)) = usdtOrder (vm w) ∧
     usdtModalVisible (vm (buy plan w)) = usdtModalVisible (vm w) ∧
     intervals (buy plan w) = intervals w) ∧
  (∀ w i out d, reachable t w →
     inflight w !! i = Some AwaitCreate → accepted out = Some d →
     ∃ w' h, step t w (Answered i (OrderReply out)) = Some w' ∧
             usdtOrder (vm w') = Some d ∧
             usdtModalVisible (vm w') = true ∧
             getUsdtQrText (usdtOrder (vm w')) = Js.or (address d) (Js.Str "") ∧
             usdtPollingTimer (vm w') = Some h ∧
             intervals w' = {[ h := {| period_ms := 5000;
                                       callback := CallRefreshUsdtOrder |} ]} ∧
             (Js.truthy (order_id d) = true →
              ∃ w'', step t w' (Tick h) = Some w'' ∧
                     sent w'' = (sent w' ++
                                 [Api.getUsdtOrder (order_id d) (Js.Bool true)])%list)) ∧
  (∀ w i out, inflight w !! i = Some AwaitCreate → accepted out = None →
     ∃ w', step t w (Answered i (OrderReply out)) = Some w' ∧
           usdtOrder (vm w') = usdtOrder (vm w) ∧
           usdtModalVisible (vm w') = usdtModalVisible (vm w) ∧
           usdtPollingTimer (vm w') = usdtPollingTimer (vm w) ∧
           intervals w' = intervals w ∧
           sent w' = sent w).
Proof.
  split_and!.
  - done.
  - intros w i out d Hw Hi Hout. apply reachable_timer_inv in Hw.
    destruct (buy_resumed_accepted out d (drop_task i w))
      as (Ho & Hm & Ht & Hiv & Hsent); [done..|].
    eexists _, _. split; [by apply step_settle_create|].
    rewrite Ho, Hm, Ht, Hiv. split_and!; try done.
    intros Hid. eexists. split.
    + apply step_tick. rewrite Hiv. apply lookup_singleton_eq.
    + unfold refreshUsdtOrder. rewrite Ho, Hid. done.
  - intros w i out Hi Hout. eexists. split; [by apply step_settle_create|].
    unfold buy_resumed. rewrite Hout. done.
Qed.

(** *** When polling stops, and when it does not *)

Lemma view_intervals (w w' : World) :
  timer_view w' = timer_view w → intervals w' = intervals w.
Proof. unfold timer_view. by intros [= _ -> _]. Qed.

Lemma count_delete_le {A} (P : A → Prop) `{!∀ x, Decision (P x)}
    (l : list A) (i : nat) :
  (length (filter P (delete i l)) ≤ length (filter P l))%nat.
Proof.
  revert i. induction l as [|x l IH]; intros [|i]; simpl; try lia.
  - rewrite filter_cons. case_decide; simpl; lia.
  - rewrite !filter_cons. specialize (IH i). case_decide; simpl; lia.
Qed.

Lemma count_snoc_other (l : list Task) (k : Task) :
  k ≠ AwaitPlans true →
  length (filter (fun k => k = AwaitPlans true) (l ++ [k])%list)
  = length (filter (fun k => k = AwaitPlans true) l).
Proof.
  intros Hk. rewrite filter_app, length_app, filter_cons.
  rewrite decide_False by done. simpl. lia.
Qed.

Lemma stopping_refresh (w : World) :
  stopping_refreshes (refreshUsdtOrder w) = stopping_refreshes w.
Proof.
  unfold stopping_refreshes, refreshUsdtOrder.
  destruct (usdtOrder (vm w)) as [o|]; [|done].
  destruct (Js.truthy (order_id o)); [|done].
  by apply count_snoc_other.
Qed.

Lemma stopping_load_resumed out (w : World) :
  stopping_refreshes (load_resumed out w) = stopping_refreshes w.
Proof. unfold load_resumed. by destruct (accepted out). Qed.

Lemma stopping_stop (w : World) :
  stopping_refreshes (stopUsdtPolling w) = stopping_refreshes w.
Proof.
  unfold stopUsdtPolling. destruct (usdtPollingTimer (vm w)) as [h|]; [|done].
  by destruct (h =? 0)%nat.
Qed.

Lemma stopping_buy_resumed out (w : World) :
  stopping_refreshes (buy_resumed t out w) = stopping_refreshes w.
Proof.
  unfold buy_resumed. destruct (accepted out) as [d|]; [|done].
  unfold startUsdtPolling. unfold stopping_refreshes. simpl.
  fold (stopping_refreshes
          (stopUsdtPolling (with_vm (set_usdtModalVisible true)
                              (with_vm (set_usdtOrder (Some d)) w)))).
  by rewrite stopping_stop.
Qed.

Lemma stopping_refresh_resumed out (w : World) :
  (stopping_refreshes w < stopping_refreshes (refreshUsdtOrder_resumed t out w))%nat →
  ∃ d, accepted out = Some d ∧ status d = Js.Str "confirmed".
Proof.
  unfold refreshUsdtOrder_resumed.
  destruct (accepted out) as [d|]; [|simpl; unfold stopping_refreshes; simpl; lia].
  unfold Js.strict_eq. case_bool_decide as Hd.
  - intros _. by exists d.
  - unfold stopping_refreshes; simpl; lia.
Qed.

(** One round of polling on an order that is not confirmed. *)
Lemma poll_round (w : World) (h : nat) (o d : UsdtOrder) (out : Outcome UsdtOrder) :
  intervals w !! h = Some polling →
  usdtOrder (vm w) = Some o → Js.truthy (order_id o) = true →
  accepted out = Some d → status d ≠ Js.Str "confirmed" →
  ∃ w', run t w [Tick h; Answered (length (inflight w)) (OrderReply out)] = Some w' ∧
        timer_view w' = timer_view w ∧
        inflight w' = inflight w ∧
        usdtOrder (vm w') = Some d ∧
        sent w' = (sent w ++ [Api.getUsdtOrder (order_id o) (Js.Bool true)])%list.
Proof.
  intros Hh Ho Hid Hout Hd.
  assert (Hr : refreshUsdtOrder w
               = request (Api.getUsdtOrder (order_id o) (Js.Bool true)) AwaitOrder
                   (with_vm (set_usdtRefreshing true) w)).
  { unfold refreshUsdtOrder. by rewrite Ho, Hid. }
  eexists. split.
  - cbn [run]. rewrite step_tick by done. rewrite Hr.
    rewrite step_settle_order by apply lookup_snoc_length. reflexivity.
  - unfold refreshUsdtOrder_resumed. rewrite Hout.
    unfold Js.strict_eq. rewrite bool_decide_eq_false_2 by done.
    unfold timer_view. cbn. rewrite delete_snoc_length. done.
Qed.

Lemma run_app (es1 es2 : list Event) (w : World) :
  run t w (es1 ++ es2) = run t w es1 ≫= (fun w1 => run t w1 es2).
Proof.
  revert w. induction es1 as [|e es1 IH]; intros w; [done|].
  simpl. destruct (step t w e); [apply IH | done].
Qed.

(** Closing the modal and tearing the page down leave no interval
    scheduled and no handle stored. *)
Lemma close_stops (w : World) :
  timer_inv w →
  intervals (closeUsdtModal w) = ∅ ∧
  usdtPollingTimer (vm (closeUsdtModal w)) = None ∧
  intervals (beforeDestroy w) = ∅ ∧
  usdtPollingTimer (vm (beforeDestroy w)) = None.
Proof.
  intros Hw. unfold closeUsdtModal, beforeDestroy.
  destruct (stopUsdtPolling_inv w Hw) as (_ & Ht & Hi & _).
  destruct (stopUsdtPolling_inv (with_vm (set_usdtModalVisible false) w))
    as (_ & Ht' & Hi' & _); [by eapply timer_inv_view; [|exact Hw]|].
  done.
Qed.

(** A [refreshUsdtOrder] resumed from its inner [await this.load ()]
    stops the polling, whatever [load] was answered. *)
Lemma loaded_stops (w : World) (i : nat) (pout : Outcome MembershipData) :
  timer_inv w → inflight w !! i = Some (AwaitPlans true) →
  ∃ w', step t w (Answered i (PlansReply pout)) = Some w' ∧
        intervals w' = ∅ ∧ usdtPollingTimer (vm w') = None.
Proof.
  intros Hw Hi. eexists. split; [cbn [step]; rewrite Hi; reflexivity|].
  destruct (stopUsdtPolling_inv (load_resumed pout (drop_task i w)))
    as (_ & Ht & Hiv & _).
  - eapply timer_inv_view; [apply view_load_resumed|].
    by eapply timer_inv_view; [apply view_drop_task|].
  - unfold refreshUsdtOrder_loaded. split; [exact Hiv | exact Ht].
Qed.

(** C8. Closing the modal and tearing the page down stop the polling,
    and so does a refresh answered successfully with status [confirmed]:
    it shows the success message, reloads the membership data and, once
    that request is answered (successfully or not), clears the interval.
    Polling, once scheduled, is unscheduled by nothing else: only by
    closing the modal, by tearing the page down, or by the resumption of
    a [refreshUsdtOrder] that sits in its inner [await this.load ()]; and
    a [refreshUsdtOrder] gets there only from a successful answer whose
    status is [confirmed] (none is there when the page is created). A
    successful answer with any other status, the terminal [expired],
    [cancelled] and [failed] included, leaves the interval scheduled:
    however many rounds of tick and answer follow for the same order,
    each tick sends one more refresh request for it, and the interval is
    still there. *)
Theorem polling_stops_only_on :
  (∀ w e w', reachable t w → step t w e = Some w' →
     intervals w ≠ ∅ → intervals w' = ∅ →
     e = ClickClose ∨ e = Destroy ∨
     ∃ i out, e = Answered i (PlansReply out) ∧
              inflight w !! i = Some (AwaitPlans true)) ∧
  stopping_refreshes (created world0) = 0%nat ∧
  (∀ w e w', step t w e = Some w' →
     (stopping_refreshes w < stopping_refreshes w')%nat →
     ∃ i out d, e = Answered i (OrderReply out) ∧
                inflight w !! i = Some AwaitOrder ∧
                accepted out = Some d ∧ status d = Js.Str "confirmed") ∧
  (∀ outs w h o,
     intervals w !! h = Some polling →
     usdtOrder (vm w) = Some o → Js.truthy (order_id o) = true →
     Forall (fun out => ∃ d, accepted out = Some d ∧
                             status d ≠ Js.Str "confirmed" ∧
                             order_id d = order_id o) outs →
     ∃ w', run t w (poll_rounds h (length (inflight w)) outs) = Some w' ∧
           intervals w' = intervals w ∧
           usdtPollingTimer (vm w') = usdtPollingTimer (vm w) ∧
           sent w' = (sent w ++ replicate (length outs)
                        (Api.getUsdtOrder (order_id o) (Js.Bool true)))%list) ∧
  (∀ s, s ∈ [Engine.Expired; Engine.Cancelled; Engine.Failed] →
        Js.Str (Engine.status_name s) ≠ Js.Str "confirmed") ∧
  (∀ w, reachable t w →
     step t w ClickClose = Some (closeUsdtModal w) ∧
     intervals (closeUsdtModal w) = ∅ ∧
     usdtPollingTimer (vm (closeUsdtModal w)) = None) ∧
  (∀ w, reachable t w →
     step t w Destroy = Some (beforeDestroy w) ∧
     intervals (beforeDestroy w) = ∅ ∧
     usdtPollingTimer (vm (beforeDestroy w)) = None) ∧
  (∀ w i pout, reachable t w → inflight w !! i = Some (AwaitPlans true) →
     ∃ w', step t w (Answered i (PlansReply pout)) = Some w' ∧
           intervals w' = ∅ ∧ usdtPollingTimer (vm w') = None) ∧
  (∀ w i out d, reachable t w → inflight w !! i = Some AwaitOrder →
     accepted out = Some d → status d = Js.Str "confirmed" →
     ∃ w1, step t w (Answered i (OrderReply out)) = Some w1 ∧
           intervals w1 = intervals w ∧
           usdtOrder (vm w1) = Some d ∧
           toasts w1 = (toasts w ++
                        [ToastSuccess (Js.Str (t "billing.usdt.paidSuccess"))])%list ∧
           sent w1 = (sent w ++ [Api.getMembershipPlans])%list ∧
           inflight w1 = (delete i (inflight w) ++ [AwaitPlans true])%list ∧
           ∀ pout, ∃ w2,
             step t w1 (Answered (length (delete i (inflight w))) (PlansReply pout))
             = Some w2 ∧
             intervals w2 = ∅ ∧ usdtPollingTimer (vm w2) = None ∧
             usdtRefreshing (vm w2) = false ∧
             usdtOrder (vm w2) = Some d).
Proof.
  split_and!.
  - intros w e w' Hw Hstep Hne Hemp. apply reachable_timer_inv in Hw.
    destruct e as [plan| | | |h|i r|th txt]; auto;
      [..|by destruct (step_copy _ _ _ _ Hstep) as [->|[m ->]]];
      simpl in Hstep.
    + injection Hstep as <-. by rewrite (view_intervals _ _ (view_buy plan w)) in Hemp.
    + injection Hstep as <-. by rewrite (view_intervals _ _ (view_refresh w)) in Hemp.
    + destruct (intervals w !! h) as [[p []]|]; [|done]. injection Hstep as <-.
      by rewrite (view_intervals _ _ (view_refresh w)) in Hemp.
    + destruct (inflight w !! i) as [k|] eqn:Ei; [|done].
      destruct k as [[|]| |], r as [out|out]; simpl in Hstep; try done.
      * right; right. by exists i, out.
      * injection Hstep as <-.
        by rewrite (view_intervals _ _ (view_load_resumed out _)) in Hemp.
      * injection Hstep as <-. exfalso.
        unfold buy_resumed in Hemp. destruct (accepted out) as [d|].
        -- set (w1 := with_vm (set_usdtModalVisible true)
                        (with_vm (set_usdtOrder (Some d)) (drop_task i w))) in *.
           assert (H1 : timer_inv w1)
             by (eapply timer_inv_view; [|exact Hw]; done).
           destruct (startUsdtPolling_inv w1 H1) as (_ & _ & Hi).
           cbn [intervals with_vm] in Hemp. rewrite Hi in Hemp.
           by apply map_non_empty_singleton in Hemp.
        -- done.
      * injection Hstep as <-.
        by rewrite (view_intervals _ _ (view_refresh_resumed out _)) in Hemp.
  - reflexivity.
  - intros w e w' Hstep Hlt.
    destruct e as [plan| | | |h|i r|th txt];
      [..|destruct (step_copy _ _ _ _ Hstep) as [->|[m ->]];
          unfold stopping_refreshes in Hlt; simpl in Hlt; lia];
      simpl in Hstep.
    + injection Hstep as <-. exfalso. revert Hlt.
      unfold stopping_refreshes, buy. simpl.
      rewrite count_snoc_other by done. lia.
    + injection Hstep as <-. rewrite stopping_refresh in Hlt. lia.
    + injection Hstep as <-. unfold closeUsdtModal in Hlt.
      rewrite stopping_stop in Hlt. unfold stopping_refreshes in Hlt.
      simpl in Hlt. lia.
    + injection Hstep as <-. unfold beforeDestroy in Hlt.
      rewrite stopping_stop in Hlt. lia.
    + destruct (intervals w !! h) as [[p []]|]; [|done]. injection Hstep as <-.
      rewrite stopping_refresh in Hlt. lia.
    + destruct (inflight w !! i) as [k|] eqn:Ei; [|done].
      assert (Hdrop : (stopping_refreshes (drop_task i w) ≤ stopping_refreshes w)%nat)
        by apply count_delete_le.
      destruct k as [[|]| |], r as [out|out]; simpl in Hstep; try done;
        injection Hstep as <-.
      * unfold refreshUsdtOrder_loaded in Hlt. exfalso. revert Hlt.
        change (stopping_refreshes (with_vm (set_usdtRefreshing false) ?x))
          with (stopping_refreshes x).
        rewrite stopping_stop, stopping_load_resumed. lia.
      * rewrite stopping_load_resumed in Hlt. lia.
      * rewrite stopping_buy_resumed in Hlt. lia.
      * destruct (stopping_refresh_resumed out (drop_task i w)) as (d & Hd & Hs);
          [lia|]. by exists i, out, d.
  - intros outs. induction outs as [|out outs IH]; intros w h o Hh Ho Hid Hall.
    + exists w. simpl. by rewrite app_nil_r.
    + apply Forall_cons in Hall as [(d & Hout & Hd & Hsame) Hall].
      destruct (poll_round w h o d out) as (w1 & Hrun & Hview & Hin & Ho1 & Hsent);
        [done..|].
      destruct (IH w1 h d) as (w' & Hrun' & Hi' & Ht' & Hsent').
      * by rewrite (view_intervals _ _ Hview).
      * done.
      * by rewrite Hsame.
      * eapply Forall_impl; [exact Hall|]. intros out' (d' & ? & ? & ?).
        exists d'. split_and!; [done..|congruence].
      * exists w'. split_and!.
        -- unfold poll_rounds in *. rewrite bind_cons, run_app, Hrun. simpl.
           by rewrite <- Hin.
        -- by rewrite Hi', (view_intervals _ _ Hview).
        -- rewrite Ht'. unfold timer_view in Hview. by injection Hview.
        -- rewrite Hsent', Hsent, Hsame. simpl. by rewrite <- app_assoc.
  - intros s Hs. set_unfold. destruct Hs as [->|[->|[->|[]]]]; discriminate.
  - intros w Hw. apply reachable_timer_inv in Hw.
    destruct (close_stops w Hw) as (? & ? & _). done.
  - intros w Hw. apply reachable_timer_inv in Hw.
    destruct (close_stops w Hw) as (_ & _ & ? & ?). done.
  - intros w i pout Hw Hi. apply reachable_timer_inv in Hw. by apply loaded_stops.
  - intros w i out d Hw Hi Hout Hd. apply reachable_timer_inv in Hw.
    assert (Hr : refreshUsdtOrder_resumed t out (drop_task i w)
                 = load true
                     (toast (ToastSuccess (Js.Str (t "billing.usdt.paidSuccess")))
                        (with_vm (set_usdtOrder (Some d)) (drop_task i w)))).
    { unfold refreshUsdtOrder_resumed. rewrite Hout, Hd.
      unfold Js.strict_eq. by rewrite bool_decide_eq_true_2. }
    eexists. split; [by apply step_settle_order|]. rewrite Hr.
    split_and!; try reflexivity.
    intros pout.
    destruct (loaded_stops
                (load true
                   (toast (ToastSuccess (Js.Str (t "billing.usdt.paidSuccess")))
                      (with_vm (set_usdtOrder (Some d)) (drop_task i w))))
                (length (delete i (inflight w))) pout)
      as (w2 & Hs2 & Hi2 & Ht2).
    + eapply timer_inv_view; [|exact Hw]. reflexivity.
    + apply lookup_snoc_length.
    + exists w2. split; [exact Hs2|]. split; [exact Hi2|]. split; [exact Ht2|].
      cbn [step] in Hs2. cbn [load request inflight] in Hs2.
      rewrite lookup_snoc_length in Hs2. cbn [resume] in Hs2.
      injection Hs2 as <-. unfold refreshUsdtOrder_loaded. split; [reflexivity|].
      unfold stopUsdtPolling, load_resumed.
      destruct (accepted pout); cbn;
        destruct (usdtPollingTimer (vm w)) as [h|]; try done;
        by destruct (h =? 0)%nat.
Qed.

End Flow.

Lemma refresh_requests_one_pass_witness :
  Page.sent Samples.refreshing =
    [ {| Api.url := "/api/billing/usdt/order/7"; Api.meth := Api.GET;
         Api.params := [("refresh", Js.Num 1)]; Api.data := [] |} ] ∧
  Page.refreshUsdtOrder MoreSamples.after_zero_id_purchase
  = MoreSamples.after_zero_id_purchase.
Proof.
  destruct (refresh_requests_one_pass (fun k => k))
    as (_ & _ & _ & H & Hfalsy & _).
  split.
  - destruct (H (Page.with_vm (Page.set_usdtOrder (Some Samples.pending_order))
                   Page.world0) Samples.pending_order)
      as (_ & Hsent & _); [reflexivity | reflexivity | reflexivity |].
    exact Hsent.
  - destruct (Hfalsy MoreSamples.after_zero_id_purchase MoreSamples.zero_id_order)
      as (_ & Hsame); [reflexivity | reflexivity |].
    exact Hsame.
Defined.

(** The page displays an order whose id is [0]: a press on the refresh
    button sends no request, so a refresh does not send its GET for
    every order id. *)
Lemma refresh_of_zero_id_sends_nothing :
  Page.reachable (fun k => k) MoreSamples.after_zero_id_purchase ∧
  Page.usdtOrder (Page.vm MoreSamples.after_zero_id_purchase)
  = Some MoreSamples.zero_id_order ∧
  Page.order_id MoreSamples.zero_id_order = Js.Num 0 ∧
  Page.step (fun k => k) MoreSamples.after_zero_id_purchase Page.ClickRefresh
  = Some MoreSamples.after_zero_id_purchase ∧
  ¬ (∀ (w : Page.World) (o : Page.UsdtOrder),
       Page.reachable (fun k => k) w →
       Page.usdtOrder (Page.vm w) = Some o →
       ∃ w', Page.step (fun k => k) w Page.ClickRefresh = Some w' ∧
             Page.sent w' =
               (Page.sent w ++
                [Api.getUsdtOrder (Page.order_id o) (Js.Bool true)])%list).
Proof.
  assert (Hreach : Page.reachable (fun k => k) MoreSamples.after_zero_id_purchase).
  { exists [Page.ClickBuy (Js.Str "monthly");
            Page.Answered 1 (Page.OrderReply
                               (Samples.ok_reply MoreSamples.zero_id_order))].
    reflexivity. }
  split; [exact Hreach|]. split; [reflexivity|]. split; [reflexivity|].
  split; [reflexivity|].
  intros H.
  destruct (H MoreSamples.after_zero_id_purchase MoreSamples.zero_id_order
              Hreach eq_refl) as (w' & Hstep & Hsent).
  cbn [Page.step] in Hstep. injection Hstep as <-.
  apply (f_equal length) in Hsent. vm_compute in Hsent. discriminate.
Qed.

Lemma failed_refresh_keeps_order_witness :
  ∃ w', Page.step (fun k => k) Samples.refreshing
          (Page.Answered 0 (Page.OrderReply Samples.timed_out)) = Some w' ∧
        Page.usdtOrder (Page.vm w') = Some Samples.pending_order ∧
        Page.toasts w' = [].
Proof.
  destruct (failed_refresh_keeps_order (fun k => k)) as (H & _).
  destruct (H Samples.refreshing 0%nat Samples.timed_out)
    as (w' & Hs & Ho & _ & _ & _ & Ht & _); [reflexivity | reflexivity |].
  exists w'. split; [exact Hs|]. split; [exact Ho | exact Ht].
Defined.

Lemma purchase_flow_witness :
  ∃ w' h, Page.step (fun k => k)
            (Page.buy (Js.Str "monthly") (Page.created Page.world0))
            (Page.Answered 1 (Page.OrderReply (Samples.ok_reply Samples.pending_order)))
          = Some w' ∧
          Page.usdtOrder (Page.vm w') = Some Samples.pending_order ∧
          Page.intervals w' = {[ h := Page.polling ]}.
Proof.
  destruct (purchase_flow (fun k => k)) as (_ & H & _).
  destruct (H (Page.buy (Js.Str "monthly") (Page.created Page.world0)) 1%nat
              (Samples.ok_reply Samples.pending_order) Samples.pending_order)
    as (w' & h & Hs & Ho & _ & _ & _ & Hi & _).
  - exists [Page.ClickBuy (Js.Str "monthly")]. reflexivity.
  - reflexivity.
  - reflexivity.
  - exists w', h. split; [exact Hs|]. split; [exact Ho | exact Hi].
Defined.

Lemma one_polling_timer_witness :
  size (Page.intervals Samples.both_answered) = 1%nat ∧
  Page.usdtOrder (Page.vm Samples.both_answered) = Some Samples.pending_order.
Proof.
  destruct (one_polling_timer (fun k => k)) as (_ & _ & _ & _ & H).
  destruct (H Samples.two_purchases 2%nat 1%nat
              (Samples.ok_reply Samples.paid_order)
              (Samples.ok_reply Samples.pending_order)
              Samples.paid_order Samples.pending_order
              Samples.second_answered Samples.both_answered)
    as (_ & Hsz & Ho).
  - exists [Page.ClickBuy (Js.Str "monthly"); Page.ClickBuy (Js.Str "yearly")].
    reflexivity.
  - reflexivity.
  - reflexivity.
  - reflexivity.
  - reflexivity.
  - reflexivity.
  - reflexivity.
  - split; [exact Hsz | exact Ho].
Defined.

Lemma polling_stops_only_on_witness :
  (∃ w', Page.run (fun k => k) Samples.after_purchase
           (Page.poll_rounds 1 1 Samples.dead_answers) = Some w' ∧
         Page.intervals w' = Page.intervals Samples.after_purchase ∧
         Page.sent w' =
           (Page.sent Samples.after_purchase ++
            replicate 3 (Api.getUsdtOrder (Js.Num 7) (Js.Bool true)))%list) ∧
  Page.intervals Samples.after_purchase = {[ 1%nat := Page.polling ]} ∧
  (Page.step (fun k => k) Samples.after_purchase Page.ClickClose
   = Some (Page.closeUsdtModal Samples.after_purchase) ∧
   Page.intervals (Page.closeUsdtModal Samples.after_purchase) = ∅ ∧
   Page.usdtPollingTimer (Page.vm (Page.closeUsdtModal Samples.after_purchase))
   = None) ∧
  (Page.step (fun k => k) Samples.after_purchase Page.Destroy
   = Some (Page.beforeDestroy Samples.after_purchase) ∧
   Page.intervals (Page.beforeDestroy Samples.after_purchase) = ∅ ∧
   Page.usdtPollingTimer (Page.vm (Page.beforeDestroy Samples.after_purchase))
   = None) ∧
  (∃ w1 w2,
     Page.step (fun k => k) MoreSamples.polled
       (Page.Answered 1 (Page.OrderReply (Samples.ok_reply MoreSamples.confirmed_order)))
     = Some w1 ∧
     Page.intervals w1 = {[ 1%nat := Page.polling ]} ∧
     Page.toasts w1 = [Page.ToastSuccess (Js.Str "billing.usdt.paidSuccess")] ∧
     Page.step (fun k => k) w1 (Page.Answered 1 (Page.PlansReply Samples.timed_out))
     = Some w2 ∧
     Page.intervals w2 = ∅ ∧
     Page.usdtPollingTimer (Page.vm w2) = None).
Proof.
  destruct (polling_stops_only_on (fun k => k))
    as (_ & _ & _ & H & _ & Hclose & Hdestroy & _ & Hconfirmed).
  assert (Hreach : Page.reachable (fun k => k) Samples.after_purchase).
  { exists [Page.ClickBuy (Js.Str "monthly");
            Page.Answered 1 (Page.OrderReply (Samples.ok_reply Samples.pending_order))].
    reflexivity. }
  assert (Hpolled : Page.reachable (fun k => k) MoreSamples.polled).
  { exists [Page.ClickBuy (Js.Str "monthly");
            Page.Answered 1 (Page.OrderReply (Samples.ok_reply Samples.pending_order));
            Page.Tick 1].
    reflexivity. }
  split; [|split; [reflexivity|split; [|split]]].
  - destruct (H Samples.dead_answers Samples.after_purchase 1%nat Samples.pending_order)
      as (w' & Hrun & Hi & _ & Hsent).
    + reflexivity.
    + reflexivity.
    + reflexivity.
    + repeat constructor; exists Samples.expired_order; (split; [reflexivity|]);
        (split; [discriminate | reflexivity]).
    + exists w'. split; [exact Hrun|]. split; [exact Hi | exact Hsent].
  - exact (Hclose Samples.after_purchase Hreach).
  - exact (Hdestroy Samples.after_purchase Hreach).
  - destruct (Hconfirmed MoreSamples.polled 1%nat
                (Samples.ok_reply MoreSamples.confirmed_order)
                MoreSamples.confirmed_order Hpolled)
      as (w1 & Hs1 & Hi1 & _ & Ht1 & _ & _ & Hnext); [reflexivity..|].
    destruct (Hnext Samples.timed_out) as (w2 & Hs2 & Hi2 & Ht2 & _).
    exists w1, w2. split; [exact Hs1|]. split; [exact Hi1|]. split; [exact Ht1|].
    split; [exact Hs2|]. split; [exact Hi2 | exact Ht2].
Defined.

(** * Properties of the order engine *)

Section EngineFacts.

Import Engine.

Lemma settle_at_applied (times : list nat) (o : PaymentOrder) (l : list Credit) :
  settlement_applied o = true → settle_at times (o, l) = (o, l).
Proof.
  intros Ho. induction times as [|now times IH]; [done|].
  unfold settle_at in *. simpl. by rewrite Ho.
Qed.

Lemma credits_for_snoc (id : nat) (l : list Credit) (c : Credit) :
  credits_for id (l ++ [c])%list
  = (credits_for id l + (if decide (credit_order c = id) then 1 else 0))%nat.
Proof.
  unfold credits_for. rewrite filter_app, length_app, filter_cons.
  by case_decide.
Qed.

(** *** The order table *)

Lemma same_identity_refl (o : PaymentOrder) : same_identity o o.
Proof. by repeat split. Qed.

Lemma same_identity_trans (o1 o2 o3 : PaymentOrder) :
  same_identity o1 o2 → same_identity o2 o3 → same_identity o1 o3.
Proof. unfold same_identity. intuition congruence. Qed.

Lemma same_identity_with_status s o : same_identity o (with_status s o).
Proof. by repeat split. Qed.

Lemma same_identity_mark_paid tr o : same_identity o (mark_paid tr o).
Proof. by repeat split. Qed.

Lemma same_identity_settled now o l :
  same_identity o (settlement_effector now (o, l)).1.
Proof.
  unfold settlement_effector. destruct (settlement_applied o); by repeat split.
Qed.

Lemma address_taken_spec (a : string) (st : Store) :
  address_taken a st = true ↔ ∃ i o, orders st !! i = Some o ∧ address o = a.
Proof.
  unfold address_taken. rewrite bool_decide_eq_true, list_elem_of_fmap.
  split.
  - intros (o & -> & Ho). apply list_elem_of_fmap in Ho as ([i o'] & -> & Hio).
    apply elem_of_map_to_list in Hio. by exists i, o'.
  - intros (i & o & Hio & <-). exists o. split; [done|].
    apply list_elem_of_fmap. exists (i, o). split; [done|].
    by apply elem_of_map_to_list.
Qed.

Lemma rewrites_same (st : Store) : rewrites st st.
Proof. split; [done | by left]. Qed.

Lemma move_if_rewrites guard to id st :
  store_inv st → rewrites st (move_if guard to id st).
Proof.
  intros [Hk _]. unfold move_if.
  destruct (orders st !! id) as [o|] eqn:Eo; [|apply rewrites_same].
  destruct (guard o); [|apply rewrites_same].
  split; [done|]. right. exists id, o, (with_status to o).
  split_and!; [done | apply same_identity_with_status |].
  unfold put. simpl. by destruct (Hk id o Eo) as [-> _].
Qed.

Lemma apply_shape (cfg : Config) (st : Store) (op : Op) :
  store_inv st →
  rewrites st (apply cfg st op) ∨ ∃ o, adds st (apply cfg st op) o.
Proof.
  intros Hinv. pose proof Hinv as [Hk _].
  destruct op as [owner pn now|id ans now|id now|id|id|id now|p q]; simpl.
  - unfold CreateOrder. destruct (plan_of_name pn) as [p|]; [|left; apply rewrites_same].
    destruct (derive cfg (next_index st)) as [a|]; simpl;
      [|left; split; [done | by left]].
    match goal with |- context [address_taken a ?s] =>
      destruct (address_taken a s) eqn:Et end; simpl.
    + left. split; [done | by left].
    + right. eexists. split_and!; [reflexivity | reflexivity | reflexivity | exact Et].
  - left. unfold Reconcile.
    destruct (orders st !! id) as [o|] eqn:Eo; [|apply rewrites_same].
    destruct ans as [l| |]; try apply rewrites_same.
    destruct (status o); try apply rewrites_same.
    + destruct (List.find (satisfies cfg o) l) as [tr|]; [|apply rewrites_same].
      split; [done|]. right. exists id, o, (mark_paid tr o).
      split_and!; [done | apply same_identity_mark_paid |].
      unfold put. simpl. by destruct (Hk id o Eo) as [-> _].
    + destruct (deep_enough cfg o l); [|apply rewrites_same].
      destruct (settlement_effector now (with_status Confirmed o, ledger st))
        as [o' l'] eqn:Es.
      split; [done|]. right. exists id, o, o'. split_and!; [done| |done].
      eapply same_identity_trans; [apply (same_identity_with_status Confirmed)|].
      pose proof (same_identity_settled now (with_status Confirmed o) (ledger st))
        as Hsi.
      by rewrite Es in Hsi.
  - left. by apply move_if_rewrites.
  - left. by apply move_if_rewrites.
  - left. by apply move_if_rewrites.
  - left. unfold Settle.
    destruct (orders st !! id) as [o|] eqn:Eo; [|apply rewrites_same].
    case_bool_decide; [|apply rewrites_same].
    destruct (settlement_effector now (o, ledger st)) as [o' l'] eqn:Es.
    split; [done|]. right. exists id, o, o'. split_and!; [done| |done].
    pose proof (same_identity_settled now o (ledger st)) as Hsi.
    by rewrite Es in Hsi.
  - left. split; [done | by left].
Qed.

Lemma rewrites_inv (st st' : Store) : store_inv st → rewrites st st' → store_inv st'.
Proof.
  intros [Hk Ha] [Hn [Ho|(i & o & o' & Hio & Hid & Ho)]].
  - unfold store_inv. by rewrite Ho, Hn.
  - destruct Hid as (Hid & _ & _ & _ & Haddr & _).
    unfold store_inv. rewrite Ho, Hn. split.
    + intros j oj. rewrite lookup_insert. case_decide as Hij.
      * intros [= <-]. subst j. destruct (Hk i o Hio). split; [congruence|done].
      * apply Hk.
    + intros j1 j2 o1 o2. rewrite !lookup_insert.
      repeat case_decide; subst; intros; simplify_eq; try done.
      * eapply Ha; [exact Hio | done | congruence].
      * eapply Ha; [done | exact Hio | congruence].
      * by eapply Ha.
Qed.

Lemma adds_inv (st st' : Store) (o : PaymentOrder) :
  store_inv st → adds st st' o → store_inv st'.
Proof.
  intros [Hk Ha] (Ho & Hid & Hn & Hfree).
  assert (Hnew : ∀ i oi, orders st !! i = Some oi → address oi ≠ address o).
  { intros i oi Hi Heq. apply not_true_iff_false in Hfree. apply Hfree.
    apply address_taken_spec. by exists i, oi. }
  unfold store_inv. rewrite Ho, Hn. split.
  - intros j oj. rewrite lookup_insert. case_decide as Hij.
    + intros [= <-]. subst j. split; [done | lia].
    + intros Hj. destruct (Hk j oj Hj). split; [done | lia].
  - intros j1 j2 o1 o2. rewrite !lookup_insert.
    repeat case_decide; subst; intros; simplify_eq; try done.
    + exfalso. by eapply Hnew.
    + exfalso. by eapply Hnew.
    + by eapply Ha.
Qed.

Lemma apply_inv cfg st op : store_inv st → store_inv (apply cfg st op).
Proof.
  intros Hinv. destruct (apply_shape cfg st op Hinv) as [H|[o H]].
  - by eapply rewrites_inv.
  - by eapply adds_inv.
Qed.

Lemma exec_inv cfg ops st : store_inv st → store_inv (exec cfg st ops).
Proof.
  revert st. induction ops as [|op ops IH]; intros st Hinv; [done|].
  apply IH. by apply apply_inv.
Qed.

Lemma empty_store_inv prices : store_inv (empty_store prices).
Proof. split; intros *; simpl; by rewrite lookup_empty. Qed.

Lemma apply_keeps cfg st op i o :
  store_inv st → orders st !! i = Some o →
  ∃ o', orders (apply cfg st op) !! i = Some o' ∧ same_identity o o'.
Proof.
  intros Hinv Hi. pose proof Hinv as [Hk _].
  destruct (apply_shape cfg st op Hinv)
    as [[_ [Ho|(j & oj & o' & Hj & Hid & Ho)]]|[o' (Ho & _ & _ & _)]];
    rewrite Ho.
  - exists o. split; [done | apply same_identity_refl].
  - destruct (decide (j = i)) as [->|Hne].
    + exists o'. rewrite lookup_insert_eq. split; [done|]. congruence.
    + exists o. rewrite lookup_insert_ne by done.
      split; [done | apply same_identity_refl].
  - exists o. destruct (Hk i o Hi) as [_ Hlt].
    rewrite lookup_insert_ne by lia. split; [done | apply same_identity_refl].
Qed.

Lemma exec_keeps cfg ops st i o :
  store_inv st → orders st !! i = Some o →
  ∃ o', orders (exec cfg st ops) !! i = Some o' ∧ same_identity o o'.
Proof.
  revert st o. induction ops as [|op ops IH]; intros st o Hinv Hi.
  - exists o. split; [done | apply same_identity_refl].
  - destruct (apply_keeps cfg st op i o Hinv Hi) as (o1 & H1 & Hid1).
    destruct (IH (apply cfg st op) o1) as (o2 & H2 & Hid2);
      [by apply apply_inv | done |].
    exists o2. split; [done | by eapply same_identity_trans].
Qed.

Lemma exec_app cfg ops later st :
  exec cfg st (ops ++ later) = exec cfg (exec cfg st ops) later.
Proof. apply foldl_app. Qed.

Lemma ledger_ok_rewrite m l i o o' :
  m !! i = Some o → settlement_applied o' = settlement_applied o →
  ledger_ok m l → ledger_ok (<[i := o']> m) l.
Proof.
  intros Hi Hf Hok j. rewrite (Hok j), lookup_insert.
  case_decide as Hij; [|done]. subst j. simpl. by rewrite Hi, Hf.
Qed.

Lemma ledger_ok_fresh m l i o :
  m !! i = None → settlement_applied o = false →
  ledger_ok m l → ledger_ok (<[i := o]> m) l.
Proof.
  intros Hi Hf Hok j. rewrite (Hok j), lookup_insert.
  case_decide as Hij; [|done]. subst j. simpl. by rewrite Hi, Hf.
Qed.

Lemma ledger_ok_settled m l i o o0 now :
  m !! i = Some o → order_id o0 = i →
  settlement_applied o0 = settlement_applied o →
  ledger_ok m l →
  ledger_ok (<[i := (settlement_effector now (o0, l)).1]> m)
            (settlement_effector now (o0, l)).2.
Proof.
  intros Hi Hid Hf Hok. unfold settlement_effector.
  destruct (settlement_applied o0) eqn:E0; simpl.
  - apply (ledger_ok_rewrite m l i o); [done | congruence | done].
  - intros j. rewrite credits_for_snoc, (Hok j), lookup_insert. simpl.
    rewrite Hid. destruct (decide (i = j)) as [<-|Hij].
    + simpl. rewrite Hi, <- Hf. done.
    + lia.
Qed.

Lemma apply_ledger_ok cfg st op :
  store_inv st → ledger_ok (orders st) (ledger st) →
  ledger_ok (orders (apply cfg st op)) (ledger (apply cfg st op)).
Proof.
  intros [Hk _] Hok.
  assert (Hmove : ∀ guard to id,
            ledger_ok (orders (move_if guard to id st))
                      (ledger (move_if guard to id st))).
  { intros guard to id. unfold move_if.
    destruct (orders st !! id) as [o|] eqn:Eo; [|done].
    destruct (guard o); [|done]. unfold put. simpl.
    destruct (Hk id o Eo) as [-> _]. by apply (ledger_ok_rewrite _ _ _ o). }
  destruct op as [owner pn now|id ans now|id now|id|id|id now|p q]; simpl;
    try apply Hmove; try done.
  - unfold CreateOrder. destruct (plan_of_name pn) as [p|]; [|done].
    destruct (derive cfg (next_index st)) as [a|]; [|done].
    match goal with |- context [address_taken a ?s] =>
      destruct (address_taken a s) end; [done|]. simpl.
    apply ledger_ok_fresh; [|done|done].
    destruct (orders st !! next_order_id st) as [o|] eqn:Eo; [|done].
    destruct (Hk _ o Eo). lia.
  - unfold Reconcile. destruct (orders st !! id) as [o|] eqn:Eo; [|done].
    destruct ans as [l| |]; try done.
    destruct (status o); try done.
    + destruct (List.find (satisfies cfg o) l) as [tr|]; [|done].
      unfold put. simpl. destruct (Hk id o Eo) as [-> _].
      by apply (ledger_ok_rewrite _ _ _ o).
    + destruct (deep_enough cfg o l); [|done].
      pose proof (ledger_ok_settled (orders st) (ledger st) id o
                    (with_status Confirmed o) now Eo) as Hset.
      destruct (settlement_effector now (with_status Confirmed o, ledger st))
        as [o' l']. simpl in *. apply Hset; [by destruct (Hk id o Eo) | done | done].
  - unfold Settle. destruct (orders st !! id) as [o|] eqn:Eo; [|done].
    case_bool_decide; [|done].
    pose proof (ledger_ok_settled (orders st) (ledger st) id o o now Eo) as Hset.
    destruct (settlement_effector now (o, ledger st)) as [o' l']. simpl in *.
    apply Hset; [by destruct (Hk id o Eo) | done | done].
Qed.

Lemma exec_ledger_ok cfg ops st :
  store_inv st → ledger_ok (orders st) (ledger st) →
  ledger_ok (orders (exec cfg st ops)) (ledger (exec cfg st ops)).
Proof.
  revert st. induction ops as [|op ops IH]; intros st Hinv Hok; [done|].
  apply IH; [by apply apply_inv | by apply apply_ledger_ok].
Qed.

(** *** The transitions the operations make *)









(** C1. On a confirmed order whose [settlement_applied] is still false,
    any number N ≥ 1 of runs of the Settlement Effector has the effect of
    the first run alone: the ledger holds exactly one more credit for
    the order, the flag is set and [confirmed_at] is the instant of the
    first run. A run on an order whose flag is set changes nothing, so
    running twice is the same as running once. In every store the engine
    can reach, however often orders were reconciled and settled again, the
    ledger was asked to credit exactly once for each order whose flag is
    set and never for any other. *)
Theorem settlement_exactly_once :
  (∀ o l now later, status o = Confirmed → settlement_applied o = false →
     settle_at (now :: later) (o, l) = settlement_effector now (o, l) ∧
     (settle_at (now :: later) (o, l)).2 = (l ++ [credit_of o])%list ∧
     credits_for (order_id o) (settle_at (now :: later) (o, l)).2
       = S (credits_for (order_id o) l) ∧
     settlement_applied (settle_at (now :: later) (o, l)).1 = true ∧
     confirmed_at (settle_at (now :: later) (o, l)).1 = Some now ∧
     status (settle_at (now :: later) (o, l)).1 = Confirmed) ∧
  (∀ o l now, settlement_applied o = true →
     settlement_effector now (o, l) = (o, l)) ∧
  (∀ ol now1 now2,
     settlement_effector now2 (settlement_effector now1 ol)
     = settlement_effector now1 ol) ∧
  (∀ cfg prices ops i,
     credits_for i (ledger (exec cfg (empty_store prices) ops)) =
       match orders (exec cfg (empty_store prices) ops) !! i with
       | Some o => if settlement_applied o then 1%nat else 0%nat
       | None => 0%nat
       end).
Proof.
  split_and!.
  - intros o l now later Hs Hf.
    assert (E : settle_at (now :: later) (o, l) = settlement_effector now (o, l)).
    { unfold settle_at. simpl. rewrite Hf.
      by apply (settle_at_applied later). }
    rewrite E. unfold settlement_effector. rewrite Hf. simpl.
    split_and!; try done.
    rewrite credits_for_snoc. simpl. rewrite decide_True by done. lia.
  - intros o l now Hf. unfold settlement_effector. by rewrite Hf.
  - intros [o l] now1 now2. unfold settlement_effector.
    destruct (settlement_applied o) eqn:Hf; [by rewrite Hf|done].
  - intros cfg prices ops. apply exec_ledger_ok; [apply empty_store_inv|].
    intros i. simpl. by rewrite lookup_empty.
Qed.

(** C2. In every store the engine can reach from the empty one, by any
    sequence of creations, reconciliations, expiries, cancellations,
    failures, settlements and price changes, two distinct orders never
    hold the same address, whoever owns them and whatever plan they buy;
    an order once stored is never dropped and keeps its address through
    everything that follows, so an order created later can never be
    given an address that an earlier order holds. *)
Theorem no_address_reuse :
  ∀ cfg prices ops,
  (∀ i j oi oj,
     orders (exec cfg (empty_store prices) ops) !! i = Some oi →
     orders (exec cfg (empty_store prices) ops) !! j = Some oj →
     i ≠ j → address oi ≠ address oj) ∧
  (∀ i j oi oj,
     orders (exec cfg (empty_store prices) ops) !! i = Some oi →
     orders (exec cfg (empty_store prices) ops) !! j = Some oj →
     oi ≠ oj → address oi ≠ address oj) ∧
  (∀ later i o,
     orders (exec cfg (empty_store prices) ops) !! i = Some o →
     ∃ o', orders (exec cfg (empty_store prices) (ops ++ later)) !! i = Some o' ∧
           address o' = address o) ∧
  (∀ later i j o o2,
     orders (exec cfg (empty_store prices) ops) !! i = Some o →
     orders (exec cfg (empty_store prices) (ops ++ later)) !! j = Some o2 →
     i ≠ j → address o2 ≠ address o).
Proof.
  intros cfg prices ops.
  assert (Hinv : ∀ l, store_inv (exec cfg (empty_store prices) l))
    by (intros l; apply exec_inv, empty_store_inv).
  assert (Hkeep : ∀ later i o,
            orders (exec cfg (empty_store prices) ops) !! i = Some o →
            ∃ o', orders (exec cfg (empty_store prices) (ops ++ later)) !! i = Some o' ∧
                  address o' = address o).
  { intros later i o Hi. rewrite exec_app.
    destruct (exec_keeps cfg later _ i o (Hinv ops) Hi) as (o' & Ho' & Hid).
    exists o'. split; [done|]. apply Hid. }
  split_and!.
  - intros i j oi oj Hi Hj Hne Heq. destruct (Hinv ops) as [_ Ha].
    by apply Hne, (Ha i j oi oj).
  - intros i j oi oj Hi Hj Hne Heq. destruct (Hinv ops) as [_ Ha].
    assert (i = j) as -> by by apply (Ha i j oi oj). congruence.
  - exact Hkeep.
  - intros later i j o o2 Hi Hj Hne Heq.
    destruct (Hkeep later i o Hi) as (o' & Ho' & Haddr).
    destruct (Hinv (ops ++ later)%list) as [_ Ha].
    apply Hne. apply (Ha i j o' o2); [done | done | congruence].
Qed.

(** C7. The page's built-in plan table prices the monthly plan at 19.9
    (that is, 19.90), the yearly plan at 199 and the lifetime plan at 499.
    A monthly order gets as [expected_amount] the catalog's monthly
    price at the moment of its creation, 19.90 under the catalog the
    page's table shows; and whatever happens to the store afterwards,
    changes of the catalog's prices included, the order is still there
    with the same [expected_amount] and plan. *)
Theorem expected_amount_fixed :
  (Page.price_usd (Page.monthly (Page.plans Page.data0)) == 1990 # 100)%Q ∧
  (Page.price_usd (Page.yearly (Page.plans Page.data0)) == 199 # 1)%Q ∧
  (Page.price_usd (Page.lifetime (Page.plans Page.data0)) == 499 # 1)%Q ∧
  (∀ cfg st owner now st' o,
     CreateOrder cfg owner "monthly" now st = (st', inr o) →
     plan o = Monthly ∧ expected_amount o = price st Monthly ∧
     status o = Pending ∧ orders st' !! order_id o = Some o) ∧
  (∀ cfg st owner now st' o,
     (price st Monthly == 1990 # 100)%Q →
     CreateOrder cfg owner "monthly" now st = (st', inr o) →
     (expected_amount o == 1990 # 100)%Q) ∧
  (∀ cfg prices ops later i o,
     orders (exec cfg (empty_store prices) ops) !! i = Some o →
     ∃ o', orders (exec cfg (empty_store prices) (ops ++ later)) !! i = Some o' ∧
           expected_amount o' = expected_amount o ∧ plan o' = plan o).
Proof.
  assert (Hcreate : ∀ cfg st owner now st' o,
            CreateOrder cfg owner "monthly" now st = (st', inr o) →
            plan o = Monthly ∧ expected_amount o = price st Monthly ∧
            status o = Pending ∧ orders st' !! order_id o = Some o).
  { intros cfg st owner now st' o. unfold CreateOrder. simpl.
    destruct (derive cfg (next_index st)) as [a|]; [|intros [= _ ?]; done].
    match goal with |- context [address_taken a ?s] =>
      destruct (address_taken a s) end; [intros [= _ ?]; done|].
    intros [= <- <-]. simpl. by rewrite lookup_insert_eq. }
  split_and!; try reflexivity.
  - exact Hcreate.
  - intros cfg st owner now st' o Hp Hc.
    destruct (Hcreate cfg st owner now st' o Hc) as (_ & -> & _). exact Hp.
  - intros cfg prices ops later i o Hi. rewrite exec_app.
    destruct (exec_keeps cfg later (exec cfg (empty_store prices) ops) i o)
      as (o' & Ho' & Hid); [apply exec_inv, empty_store_inv | done |].
    exists o'. split; [done|]. split; apply Hid.
Qed.

End EngineFacts.

Lemma settlement_exactly_once_witness :
  Engine.credits_for 0 (Engine.settle_at [1080; 1090; 1100]%nat
                          (Samples.confirmed_order, [])).2 = 1%nat.
Proof.
  destruct settlement_exactly_once as (H & _).
  destruct (H Samples.confirmed_order [] 1080%nat [1090; 1100]%nat)
    as (_ & _ & Hc & _); [reflexivity | reflexivity |].
  exact Hc.
Defined.

Lemma no_address_reuse_witness :
  ∃ oi oj,
    Engine.orders (Engine.exec Samples.cfg (Engine.empty_store Samples.page_prices)
                     Samples.scenario) !! 0%nat = Some oi ∧
    Engine.orders (Engine.exec Samples.cfg (Engine.empty_store Samples.page_prices)
                     Samples.scenario) !! 1%nat = Some oj ∧
    Engine.address oi ≠ Engine.address oj.
Proof.
  destruct (no_address_reuse Samples.cfg Samples.page_prices Samples.scenario)
    as (H & _).
  eexists _, _. split; [vm_compute; reflexivity|].
  split; [vm_compute; reflexivity|].
  apply (H 0%nat 1%nat); [vm_compute; reflexivity | vm_compute; reflexivity | lia].
Defined.

Lemma expected_amount_fixed_witness :
  ∃ o', Engine.orders (Engine.exec Samples.cfg (Engine.empty_store Samples.page_prices)
                         ([Engine.OpCreate 1 "monthly" 1000] ++
                          [Engine.OpSetPrice Engine.Monthly (2990 # 100);
                           Engine.OpExpire 0 5000])) !! 0%nat = Some o' ∧
        Engine.expected_amount o' = 199 # 10 ∧ Engine.plan o' = Engine.Monthly.
Proof.
  destruct expected_amount_fixed as (_ & _ & _ & _ & _ & H).
  destruct (H Samples.cfg Samples.page_prices [Engine.OpCreate 1 "monthly" 1000]
              [Engine.OpSetPrice Engine.Monthly (2990 # 100); Engine.OpExpire 0 5000]
              0%nat
              {| Engine.order_id := 0; Engine.owner_id := 1;
                 Engine.plan := Engine.Monthly; Engine.derivation_index := 0;
                 Engine.address := "T0"; Engine.expected_amount := 199 # 10;
                 Engine.observed_amount := 0; Engine.status := Engine.Pending;
                 Engine.tx_reference := None; Engine.created_at := 1000;
                 Engine.expires_at := 2800; Engine.confirmed_at := None;
                 Engine.settlement_applied := false |})
    as (o' & Ho' & He & Hp).
  - vm_compute. reflexivity.
  - exists o'. split; [exact Ho'|]. split; [exact He | exact Hp].
Defined.

(** * The status of an order, on the server and on the page *)

Section StatusFacts.

Import Page.

Variable t : string → string.


End StatusFacts.


(** * Further properties of the billing page *)

Section QrCode.

Import Page Checkout.

Lemma percent_decode_plain (c : ascii) (r : string) :
  c ≠ "%"%char → percent_decode (String c r) = String c (percent_decode r).
Proof.
  intros Hc. apply Ascii.eqb_neq in Hc.
  destruct r as [|a [|b r']]; try reflexivity.
  cbn [percent_decode]. rewrite Hc.
  by destruct (hex_value a), (hex_value b).
Qed.

Lemma percent_decode_escape (c : ascii) (r : string) :
  percent_decode (percent_escape c +:+ r) = String c (percent_decode r).
Proof. destruct c as [[] [] [] [] [] [] [] []]; reflexivity. Qed.

Lemma uri_unreserved_not_percent (c : ascii) :
  uri_unreserved c = true → c ≠ "%"%char.
Proof. by intros H ->. Qed.

Lemma percent_decode_encode (s : string) :
  percent_decode (encodeURIComponent s) = s.
Proof.
  induction s as [|c r IH]; [done|]. cbn [encodeURIComponent].
  destruct (uri_unreserved c) eqn:Ec.
  - rewrite percent_decode_plain by by apply uri_unreserved_not_percent.
    by rewrite IH.
  - by rewrite percent_decode_escape, IH.
Qed.

Lemma all_chars_app (p : ascii → bool) (s1 s2 : string) :
  all_chars p (s1 +:+ s2) = all_chars p s1 && all_chars p s2.
Proof.
  induction s1 as [|c r IH]; [done|]. simpl. rewrite IH. by destruct (p c).
Qed.

Lemma percent_escape_safe (c : ascii) : all_chars uri_safe (percent_escape c) = true.
Proof. destruct c as [[] [] [] [] [] [] [] []]; reflexivity. Qed.

Lemma encodeURIComponent_safe (s : string) :
  all_chars uri_safe (encodeURIComponent s) = true.
Proof.
  induction s as [|c r IH]; [done|]. cbn [encodeURIComponent].
  destruct (uri_unreserved c) eqn:Ec.
  - simpl. unfold uri_safe at 1. by rewrite Ec, IH.
  - by rewrite all_chars_app, percent_escape_safe, IH.
Qed.

(** X1. The QR image URL is empty exactly when no order is displayed or
    the displayed order has no address. Otherwise it is the QR service's
    URL followed by the encoded address, which consists of unreserved
    characters and [%] escapes only (so nothing in an address can end the
    [data] parameter or start another one) and from which the address
    text is read back unchanged. *)
Theorem usdtQrUrl_shape :
  (∀ o, usdtQrUrl o = "" ↔
        o = None ∨ ∃ ord, o = Some ord ∧ Js.truthy (address ord) = false) ∧
  (∀ ord, Js.truthy (address ord) = true →
     ∃ e, usdtQrUrl (Some ord) = qr_service +:+ e ∧
          all_chars uri_safe e = true ∧
          percent_decode e = Js.to_string (address ord)) ∧
  (∀ c, uri_safe c = true → c ∉ ["&"; "="; "#"; "?"; "/"; "+"; " "]%char).
Proof.
  split_and!.
  - intros [ord|]; unfold usdtQrUrl, getUsdtQrText, Js.or; simpl.
    + destruct (Js.truthy (address ord)) eqn:E; simpl.
      * rewrite E. split; [discriminate|]. intros [|(o' & [= <-] & ?)]; congruence.
      * split; [|done]. intros _. right. by exists ord.
    + split; [by left | done].
  - intros ord Hord. exists (encodeURIComponent (Js.to_string (address ord))).
    unfold usdtQrUrl, getUsdtQrText, Js.or. rewrite Hord, Hord.
    split_and!; [done | apply encodeURIComponent_safe | apply percent_decode_encode].
  - intros c Hc Hin. set_unfold.
    destruct Hin as [->|[->|[->|[->|[->|[->|[->|[]]]]]]]]; discriminate.
Qed.

(** X2. The QR image URL determines the text it encodes: whenever the
    URLs computed for two displayed orders (or for no order) coincide, so
    do the texts [getUsdtQrText] gives for them; in particular two orders
    with different truthy addresses never share a QR image URL. An
    address made of letters, digits and the unreserved marks stands in
    the URL unchanged. *)
Theorem usdtQrUrl_injective :
  (∀ o1 o2, usdtQrUrl o1 = usdtQrUrl o2 →
     Js.to_string (getUsdtQrText o1) = Js.to_string (getUsdtQrText o2)) ∧
  (∀ o1 o2, Js.truthy (address o1) = true →
     Js.to_string (address o1) ≠ Js.to_string (address o2) →
     usdtQrUrl (Some o1) ≠ usdtQrUrl (Some o2)) ∧
  (∀ ord s, address ord = Js.Str s → s ≠ "" →
     all_chars uri_unreserved s = true →
     usdtQrUrl (Some ord) = qr_service +:+ s).
Proof.
  assert (Hinj : ∀ s1 s2, encodeURIComponent s1 = encodeURIComponent s2 → s1 = s2).
  { intros s1 s2 H. by rewrite <- (percent_decode_encode s1), H, percent_decode_encode. }
  assert (Hfalsy : ∀ v, Js.truthy v = false → Js.to_string (Js.or v (Js.Str "")) = "").
  { intros v Hv. unfold Js.or. by rewrite Hv. }
  assert (Htext : ∀ o, Js.truthy (getUsdtQrText o) = false →
                       Js.to_string (getUsdtQrText o) = "").
  { intros [o|] Ho; [|done]. simpl in *. unfold Js.or in *.
    by destruct (Js.truthy (address o)) eqn:E; [rewrite Ho in E|]. }
  assert (Hall : ∀ o1 o2, usdtQrUrl o1 = usdtQrUrl o2 →
            Js.to_string (getUsdtQrText o1) = Js.to_string (getUsdtQrText o2)).
  { intros o1 o2. unfold usdtQrUrl.
    destruct (Js.truthy (getUsdtQrText o1)) eqn:E1,
             (Js.truthy (getUsdtQrText o2)) eqn:E2; simpl.
    - intros H. by apply String.app_inj, Hinj in H.
    - discriminate.
    - discriminate.
    - intros _. by rewrite !Htext. }
  split_and!.
  - exact Hall.
  - intros o1 o2 H1 Hne. unfold usdtQrUrl, getUsdtQrText, Js.or.
    rewrite H1, H1. destruct (Js.truthy (address o2)) eqn:H2.
    + rewrite H2. intros H. by apply String.app_inj, Hinj in H.
    + simpl. discriminate.
  - intros ord s E Hs Hun. unfold usdtQrUrl, getUsdtQrText, Js.or. rewrite E. simpl.
    destruct (String.eqb_spec s ""); [done|]. simpl.
    rewrite (proj2 (String.eqb_neq s "")) by done.
    f_equal. clear E Hs n. induction s as [|c r IH]; [done|]. simpl in *.
    destruct (uri_unreserved c); [|done]. simpl in Hun. by rewrite IH.
Qed.

End QrCode.

(** ** The page as a whole *)

Section PageFacts.

Import Page Checkout.

Variable t : string → string.

Lemma elem_of_delete_other {A} (l : list A) (i : nat) (k x : A) :
  l !! i = Some k → x ≠ k → x ∈ l → x ∈ delete i l.
Proof.
  revert i. induction l as [|y l IH]; intros [|i] Hi Hne Hx; simpl in *;
    try done.
  - injection Hi as ->. set_solver.
  - set_unfold. destruct Hx as [->|Hx]; [by left|]. right. by eapply IH.
Qed.

Lemma busy_view_stop w : busy_view (stopUsdtPolling w) = busy_view w.
Proof.
  unfold stopUsdtPolling. destruct (usdtPollingTimer (vm w)) as [h|]; [|done].
  by destruct (h =? 0)%nat.
Qed.

Lemma busy_view_load_resumed out w :
  busy_view (load_resumed out w)
  = (false, Js.truthy (purchasing (vm w)), usdtRefreshing (vm w), inflight w).
Proof. unfold load_resumed. by destruct (accepted out). Qed.

Lemma busy_view_buy_resumed out w :
  busy_view (buy_resumed t out w)
  = (loading (vm w), false, usdtRefreshing (vm w), inflight w).
Proof.
  unfold buy_resumed. destruct (accepted out) as [d|]; [|done].
  unfold startUsdtPolling, setInterval.
  set (w1 := with_vm (set_usdtModalVisible true) (with_vm (set_usdtOrder (Some d)) w)).
  pose proof (busy_view_stop w1) as H. unfold busy_view in *. simpl in *.
  by injection H as -> _ -> ->.
Qed.

Lemma busy_view_loaded w :
  busy_view (refreshUsdtOrder_loaded w)
  = ((busy_view w).1.1.1, (busy_view w).1.1.2, false, (busy_view w).2).
Proof.
  unfold refreshUsdtOrder_loaded. rewrite <- (busy_view_stop w).
  reflexivity.
Qed.

Lemma busy_view_refresh w :
  busy_view (refreshUsdtOrder w) = busy_view w ∨
  busy_view (refreshUsdtOrder w)
  = (loading (vm w), Js.truthy (purchasing (vm w)), true,
     (inflight w ++ [AwaitOrder])%list).
Proof.
  unfold refreshUsdtOrder. destruct (usdtOrder (vm w)) as [o|]; [|by left].
  destruct (Js.truthy (order_id o)); [by right | by left].
Qed.

Lemma busy_view_refresh_resumed out w :
  busy_view (refreshUsdtOrder_resumed t out w)
  = (loading (vm w), Js.truthy (purchasing (vm w)), false, inflight w) ∨
  busy_view (refreshUsdtOrder_resumed t out w)
  = (true, Js.truthy (purchasing (vm w)), usdtRefreshing (vm w),
     (inflight w ++ [AwaitPlans true])%list).
Proof.
  unfold refreshUsdtOrder_resumed. destruct (accepted out) as [d|]; [|by left].
  destruct (Js.strict_eq (status d) (Js.Str "confirmed")); [by right | by left].
Qed.

Lemma busy_inv_of_view (w w' : World) :
  busy_view w' = busy_view w → busy_inv w → busy_inv w'.
Proof. unfold busy_inv. by intros ->. Qed.

Lemma busy_inv_refresh (w : World) : busy_inv w → busy_inv (refreshUsdtOrder w).
Proof.
  intros Hw. unfold busy_inv in *.
  destruct (busy_view_refresh w) as [->| ->]; [done|].
  destruct Hw as (Hl & Hp & Hr). split_and!.
  - intros H. destruct (Hl H) as [b Hb]. exists b. set_solver.
  - intros H. specialize (Hp H). set_solver.
  - intros _. set_solver.
Qed.

Lemma busy_inv_buy plan (w : World) : busy_inv w → busy_inv (buy plan w).
Proof.
  intros (Hl & Hp & Hr). split_and!; simpl.
  - intros H. destruct (Hl H) as [b Hb]. exists b. set_solver.
  - intros _. set_solver.
  - intros H. destruct (Hr H); set_solver.
Qed.

Lemma busy_inv_answered (w : World) (i : nat) (k : Task) (r : Reply) (w' : World) :
  busy_inv w → inflight w !! i = Some k → resume t k r (drop_task i w) = Some w' →
  busy_inv w'.
Proof.
  intros (Hl & Hp & Hr) Ei Hres. simpl in Hl, Hp, Hr.
  assert (Hkeep : ∀ x, x ≠ k → x ∈ inflight w → x ∈ inflight (drop_task i w))
    by (intros x ? ?; by eapply elem_of_delete_other).
  destruct k as [[|]| |], r as [out|out]; cbn [resume] in Hres; try done;
    injection Hres as <-; unfold busy_inv.
  - rewrite busy_view_loaded, busy_view_load_resumed.
    split_and!; [done| |done]. intros H. apply Hkeep; [done | by apply Hp].
  - rewrite busy_view_load_resumed. split_and!; [done|..].
    + intros H. apply Hkeep; [done | by apply Hp].
    + intros H. destruct (Hr H); [left | right]; by apply Hkeep.
  - rewrite busy_view_buy_resumed. split_and!; [|done|].
    + intros H. destruct (Hl H) as [b Hb]. exists b. by apply Hkeep.
    + intros H. destruct (Hr H); [left | right]; by apply Hkeep.
  - destruct (busy_view_refresh_resumed out (drop_task i w)) as [-> | ->];
      split_and!; try done.
    + intros H. destruct (Hl H) as [b Hb]. exists b. by apply Hkeep.
    + intros H. apply Hkeep; [done | by apply Hp].
    + intros _. exists true. set_solver.
    + intros H. apply elem_of_app. left. apply Hkeep; [done | by apply Hp].
    + intros _. right. set_solver.
Qed.

Lemma busy_inv_step (w w' : World) (e : Event) :
  busy_inv w → step t w e = Some w' → busy_inv w'.
Proof.
  intros Hw Hstep.
  destruct e as [plan| | | |h|i r|th txt];
    [..|destruct (step_copy t _ _ _ _ Hstep) as [->|[m ->]];
        by eapply busy_inv_of_view; [|exact Hw]];
    cbn [step] in Hstep.
  - injection Hstep as <-. by apply busy_inv_buy.
  - injection Hstep as <-. by apply busy_inv_refresh.
  - injection Hstep as <-. eapply busy_inv_of_view; [|exact Hw].
    unfold closeUsdtModal. by rewrite busy_view_stop.
  - injection Hstep as <-. eapply busy_inv_of_view; [|exact Hw].
    unfold beforeDestroy. by rewrite busy_view_stop.
  - destruct (intervals w !! h) as [[p []]|]; [|done]. injection Hstep as <-.
    by apply busy_inv_refresh.
  - destruct (inflight w !! i) as [k|] eqn:Ei; [|done].
    by eapply busy_inv_answered.
Qed.

Lemma run_invariant (P : World → Prop) :
  (∀ w e w', P w → step t w e = Some w' → P w') →
  ∀ es w w', P w → run t w es = Some w' → P w'.
Proof.
  intros Hstep es. induction es as [|e es IH]; intros w w' Hw Hrun; simpl in Hrun.
  - by injection Hrun as <-.
  - destruct (step t w e) as [w1|] eqn:E; [|done]. eauto.
Qed.

Lemma stop_keeps (w : World) :
  usdtOrder (vm (stopUsdtPolling w)) = usdtOrder (vm w) ∧
  usdtModalVisible (vm (stopUsdtPolling w)) = usdtModalVisible (vm w) ∧
  sent (stopUsdtPolling w) = sent w ∧
  toasts (stopUsdtPolling w) = toasts w ∧
  inflight (stopUsdtPolling w) = inflight w.
Proof.
  unfold stopUsdtPolling. destruct (usdtPollingTimer (vm w)) as [h|]; [|done].
  by destruct (h =? 0)%nat.
Qed.

Lemma refresh_keeps (w : World) :
  usdtOrder (vm (refreshUsdtOrder w)) = usdtOrder (vm w) ∧
  usdtModalVisible (vm (refreshUsdtOrder w)) = usdtModalVisible (vm w) ∧
  usdtPollingTimer (vm (refreshUsdtOrder w)) = usdtPollingTimer (vm w).
Proof.
  unfold refreshUsdtOrder. destruct (usdtOrder (vm w)) as [o|] eqn:E; [|by rewrite E].
  destruct (Js.truthy (order_id o)); simpl; by rewrite ?E.
Qed.

Lemma shown_inv_step (w w' : World) (e : Event) :
  timer_inv w → shown_inv w → step t w e = Some w' → shown_inv w'.
Proof.
  intros Ht [Hp Hm] Hstep.
  assert (Hsame : ∀ w1, usdtPollingTimer (vm w1) = usdtPollingTimer (vm w) →
            usdtModalVisible (vm w1) = usdtModalVisible (vm w) →
            (is_Some (usdtOrder (vm w)) → is_Some (usdtOrder (vm w1))) →
            shown_inv w1).
  { intros w1 E1 E2 E3. split; rewrite ?E1, E2; auto. }
  assert (Hstop : ∀ w0, timer_inv w0 →
            (usdtModalVisible (vm w0) = true → is_Some (usdtOrder (vm w0))) →
            shown_inv (stopUsdtPolling w0)).
  { intros w0 H0 Hm0. destruct (stopUsdtPolling_inv w0 H0) as (_ & Hnone & _).
    destruct (stop_keeps w0) as (Eo & Em & _).
    split; rewrite ?Hnone, ?Eo, Em; [by intros [? ?] | done]. }
  assert (Hrefresh : shown_inv (refreshUsdtOrder w)).
  { destruct (refresh_keeps w) as (Eo & Em & Et).
    apply Hsame; [done | done | by rewrite Eo]. }
  destruct e as [plan| | | |h|i r|th txt];
    [..|destruct (step_copy t _ _ _ _ Hstep) as [->|[m ->]]; by apply Hsame];
    cbn [step] in Hstep.
  - injection Hstep as <-. by apply Hsame.
  - by injection Hstep as <-.
  - injection Hstep as <-. unfold closeUsdtModal. apply Hstop; [|done].
    eapply timer_inv_view; [|exact Ht]. done.
  - injection Hstep as <-. by apply Hstop.
  - destruct (intervals w !! h) as [[p []]|]; [|done]. by injection Hstep as <-.
  - destruct (inflight w !! i) as [k|] eqn:Ei; [|done].
    destruct k as [[|]| |], r as [out|out]; cbn [resume] in Hstep; try done;
      injection Hstep as <-.
    + unfold refreshUsdtOrder_loaded.
      assert (H1 : shown_inv (stopUsdtPolling (load_resumed out (drop_task i w)))).
      { apply Hstop.
        - eapply timer_inv_view; [apply view_load_resumed|].
          eapply timer_inv_view; [apply view_drop_task | done].
        - unfold load_resumed. destruct (accepted out); apply Hm. }
      destruct H1 as [H1 H2]. split; [apply H1 | apply H2].
    + apply Hsame; unfold load_resumed; by destruct (accepted out).
    + unfold buy_resumed. destruct (accepted out) as [d|] eqn:Eo.
      * destruct (buy_resumed_accepted t out d (drop_task i w))
          as (Ho & Hv & _); [|done|].
        { eapply timer_inv_view; [apply view_drop_task | done]. }
        unfold buy_resumed in Ho, Hv. rewrite Eo in Ho, Hv.
        split; [by rewrite Hv | by rewrite Ho].
      * by apply Hsame.
    + apply Hsame.
      * pose proof (view_refresh_resumed t out (drop_task i w)) as Hv.
        unfold timer_view in Hv. by injection Hv.
      * unfold refreshUsdtOrder_resumed. destruct (accepted out) as [d|]; [|done].
        by destruct (Js.strict_eq (status d) (Js.Str "confirmed")).
      * intros Hs. rewrite refresh_resumed_order.
        destruct (accepted out); [done | exact Hs].
Qed.

Lemma buy_resumed_sent out (w : World) : sent (buy_resumed t out w) = sent w.
Proof.
  unfold buy_resumed. destruct (accepted out) as [d|]; [|done].
  cbn [sent with_vm]. by destruct (startUsdtPolling_keeps
    (with_vm (set_usdtModalVisible true) (with_vm (set_usdtOrder (Some d)) w)))
    as (_ & _ & ->).
Qed.

Lemma refresh_sent (w : World) :
  sent (refreshUsdtOrder w) = sent w ∨
  ∃ id, sent (refreshUsdtOrder w)
        = (sent w ++ [Api.getUsdtOrder id (Js.Bool true)])%list.
Proof.
  unfold refreshUsdtOrder. destruct (usdtOrder (vm w)) as [o|]; [|by left].
  destruct (Js.truthy (order_id o)); [right; by exists (order_id o) | by left].
Qed.

Lemma step_sent (w w' : World) (e : Event) :
  step t w e = Some w' →
  sent w' = sent w ∨ ∃ r, page_request r ∧ sent w' = (sent w ++ [r])%list.
Proof.
  intros Hstep.
  assert (Hrefresh : sent (refreshUsdtOrder w) = sent w ∨
            ∃ r, page_request r ∧ sent (refreshUsdtOrder w) = (sent w ++ [r])%list).
  { destruct (refresh_sent w) as [?|[id ?]]; [by left|]. right.
    eexists. split; [|done]. right; right. by exists id. }
  destruct e as [plan| | | |h|i r|th txt];
    [..|destruct (step_copy t _ _ _ _ Hstep) as [->|[m ->]]; by left];
    cbn [step] in Hstep.
  - injection Hstep as <-. right. eexists. split; [|done]. right; left. by exists plan.
  - by injection Hstep as <-.
  - injection Hstep as <-. left. unfold closeUsdtModal.
    by destruct (stop_keeps (with_vm (set_usdtModalVisible false) w)) as (_ & _ & -> & _).
  - injection Hstep as <-. left. unfold beforeDestroy.
    by destruct (stop_keeps w) as (_ & _ & -> & _).
  - destruct (intervals w !! h) as [[p []]|]; [|done]. by injection Hstep as <-.
  - destruct (inflight w !! i) as [k|] eqn:Ei; [|done].
    destruct k as [[|]| |], r as [out|out]; cbn [resume] in Hstep; try done;
      injection Hstep as <-.
    + left. unfold refreshUsdtOrder_loaded. cbn [sent with_vm].
      destruct (stop_keeps (load_resumed out (drop_task i w))) as (_ & _ & -> & _).
      unfold load_resumed. by destruct (accepted out).
    + left. unfold load_resumed. by destruct (accepted out).
    + left. by rewrite buy_resumed_sent.
    + unfold refreshUsdtOrder_resumed. destruct (accepted out) as [d|]; [|by left].
      destruct (Js.strict_eq (status d) (Js.Str "confirmed")); [|by left].
      right. exists Api.getMembershipPlans. split; [by left | done].
Qed.

Lemma stop_intervals_empty (w : World) :
  intervals w = ∅ → intervals (stopUsdtPolling w) = ∅.
Proof.
  intros H. unfold stopUsdtPolling.
  destruct (usdtPollingTimer (vm w)) as [h|]; [|done].
  destruct (h =? 0)%nat; [done|]. simpl. rewrite H. apply delete_empty.
Qed.

(** X8. Polling is started by one thing only: in a world without any
    interval, the only event after which an interval exists is the
    successful answer to a purchase. No click, tick, close, teardown, and
    no answer to a refresh or to a load schedules one. *)
Theorem polling_starts_only_on_purchase (w w' : World) (e : Event) :
  step t w e = Some w' → intervals w = ∅ → intervals w' ≠ ∅ →
  ∃ i out d, e = Answered i (OrderReply out) ∧
             inflight w !! i = Some AwaitCreate ∧ accepted out = Some d.
Proof.
  intros Hstep Hemp Hne.
  destruct e as [plan| | | |h|i r|th txt];
    [..|destruct (step_copy t _ _ _ _ Hstep) as [->|[m ->]]; exfalso; exact (Hne Hemp)];
    cbn [step] in Hstep.
  - injection Hstep as <-. by rewrite (view_intervals _ _ (view_buy plan w)) in Hne.
  - injection Hstep as <-. by rewrite (view_intervals _ _ (view_refresh w)) in Hne.
  - injection Hstep as <-. unfold closeUsdtModal in Hne.
    by rewrite stop_intervals_empty in Hne.
  - injection Hstep as <-. unfold beforeDestroy in Hne.
    by rewrite stop_intervals_empty in Hne.
  - by rewrite Hemp, lookup_empty in Hstep.
  - destruct (inflight w !! i) as [k|] eqn:Ei; [|done].
    destruct k as [[|]| |], r as [out|out]; cbn [resume] in Hstep; try done;
      injection Hstep as <-.
    + unfold refreshUsdtOrder_loaded in Hne. cbn [intervals with_vm] in Hne.
      rewrite stop_intervals_empty in Hne; [done|].
      by rewrite (view_intervals _ _ (view_load_resumed out _)).
    + by rewrite (view_intervals _ _ (view_load_resumed out _)) in Hne.
    + destruct (accepted out) as [d|] eqn:Eo; [by exists i, out, d|].
      unfold buy_resumed in Hne. by rewrite Eo in Hne.
    + by rewrite (view_intervals _ _ (view_refresh_resumed t out _)) in Hne.
Qed.

Lemma reachable_invariants (w : World) :
  reachable t w →
  timer_inv w ∧ shown_inv w ∧ busy_inv w ∧ Forall page_request (sent w).
Proof.
  intros [es Hes].
  refine (run_invariant
            (fun w => timer_inv w ∧ shown_inv w ∧ busy_inv w
                      ∧ Forall page_request (sent w)) _ es _ _ _ Hes).
  - intros w0 e w1 (Ht & Hs & Hb & Hr) Hstep. split_and!.
    + by eapply step_timer_inv.
    + by eapply shown_inv_step.
    + by eapply busy_inv_step.
    + destruct (step_sent _ _ _ Hstep) as [->|(r & Hr1 & ->)]; [done|].
      apply Forall_app. split; [done|]. by constructor.
  - split_and!.
    + apply timer_inv_created.
    + split; [by intros [? ?] | done].
    + split_and!; [|done|done]. intros _. exists false. set_solver.
    + repeat constructor. 
Qed.

Lemma step_keeps_order (w w' : World) (e : Event) :
  step t w e = Some w' → is_Some (usdtOrder (vm w)) → is_Some (usdtOrder (vm w')).
Proof.
  intros Hstep Hs.
  destruct e as [plan| | | |h|i r|th txt];
    [..|destruct (step_copy t _ _ _ _ Hstep) as [->|[m ->]]; exact Hs];
    cbn [step] in Hstep.
  - by injection Hstep as <-.
  - injection Hstep as <-. by destruct (refresh_keeps w) as (-> & _).
  - injection Hstep as <-. unfold closeUsdtModal.
    by destruct (stop_keeps (with_vm (set_usdtModalVisible false) w)) as (-> & _).
  - injection Hstep as <-. unfold beforeDestroy.
    by destruct (stop_keeps w) as (-> & _).
  - destruct (intervals w !! h) as [[p []]|]; [|done]. injection Hstep as <-.
    by destruct (refresh_keeps w) as (-> & _).
  - destruct (inflight w !! i) as [k|] eqn:Ei; [|done].
    destruct k as [[|]| |], r as [out|out]; cbn [resume] in Hstep; try done;
      injection Hstep as <-.
    + unfold refreshUsdtOrder_loaded. cbn [vm with_vm usdtOrder set_usdtRefreshing].
      destruct (stop_keeps (load_resumed out (drop_task i w))) as (-> & _).
      unfold load_resumed. by destruct (accepted out).
    + unfold load_resumed. by destruct (accepted out).
    + unfold buy_resumed. destruct (accepted out) as [d|]; [|done].
      cbn [vm with_vm usdtOrder set_purchasing].
      by destruct (startUsdtPolling_keeps
        (with_vm (set_usdtModalVisible true)
           (with_vm (set_usdtOrder (Some d)) (drop_task i w)))) as (-> & _).
    + rewrite refresh_resumed_order. by destruct (accepted out).
Qed.

(** X9. Neither closing the modal nor tearing the page down cancels a
    purchase in flight: both clear the interval table, but when the
    purchase is then answered successfully the order is displayed, the
    modal is (re)opened and a polling interval is scheduled again. *)
Theorem purchase_outlives_close_and_teardown (w : World) (i : nat)
    (out : Outcome UsdtOrder)
    (d : UsdtOrder) (e : Event) :
  e = ClickClose ∨ e = Destroy →
  reachable t w → inflight w !! i = Some AwaitCreate → accepted out = Some d →
  ∃ w1 w2 h, step t w e = Some w1 ∧ intervals w1 = ∅ ∧
             step t w1 (Answered i (OrderReply out)) = Some w2 ∧
             usdtPollingTimer (vm w2) = Some h ∧
             intervals w2 = {[ h := polling ]} ∧
             usdtModalVisible (vm w2) = true ∧
             usdtOrder (vm w2) = Some d.
Proof.
  intros He Hw Hi Hout. apply reachable_timer_inv in Hw.
  assert (H : ∃ w1, step t w e = Some w1 ∧ timer_inv w1 ∧ intervals w1 = ∅ ∧
                    inflight w1 = inflight w).
  { destruct He as [-> | ->]; eexists; (split; [reflexivity|]).
    - unfold closeUsdtModal.
      set (w0 := with_vm (set_usdtModalVisible false) w).
      assert (H0 : timer_inv w0) by (eapply timer_inv_view; [|exact Hw]; done).
      destruct (stopUsdtPolling_inv w0 H0) as (? & _ & ? & _).
      by destruct (stop_keeps w0) as (_ & _ & _ & _ & ->).
    - unfold beforeDestroy. destruct (stopUsdtPolling_inv w Hw) as (? & _ & ? & _).
      by destruct (stop_keeps w) as (_ & _ & _ & _ & ->). }
  destruct H as (w1 & Hs1 & Ht1 & Hi1 & Hin1).
  destruct (buy_resumed_accepted t out d (drop_task i w1))
    as (Ho & Hm & Ht & Hiv & _); [|done|].
  { eapply timer_inv_view; [apply view_drop_task | done]. }
  exists w1, (buy_resumed t out (drop_task i w1)), (next_handle w1).
  split_and!; try done. apply step_settle_create. by rewrite Hin1.
Qed.

(** X12. With no displayed order, or with a displayed order that has no
    (truthy) [order_id], a refresh is a no-op: no request, no flag, no
    change at all. The interval is not touched either, so however many
    times it fires the world stays exactly as it is. *)
Theorem idle_polling_without_id (w : World) (h : nat) (n : nat) :
  intervals w !! h = Some polling →
  (usdtOrder (vm w) = None ∨
   ∃ o, usdtOrder (vm w) = Some o ∧ Js.truthy (order_id o) = false) →
  refreshUsdtOrder w = w ∧ run t w (replicate n (Tick h)) = Some w.
Proof.
  intros Hh Ho.
  assert (Hr : refreshUsdtOrder w = w).
  { unfold refreshUsdtOrder. destruct Ho as [->|(o & -> & ->)]; done. }
  split; [done|]. induction n as [|n IH]; [done|].
  cbn [replicate run]. rewrite step_tick by done. by rewrite Hr.
Qed.

(** X13. When the answer to [load ()] arrives, [loading] is cleared and
    the displayed order, the modal, the timer and the request log are
    untouched. A successful envelope replaces the plan table and the
    billing snapshot, each only if the envelope carries it, and shows no
    message; any other outcome keeps both and shows exactly one error
    message, the server's [msg] if it has a truthy one and [Load failed]
    otherwise. *)
Theorem load_outcomes (w : World) (i : nat) (out : Outcome MembershipData) :
  inflight w !! i = Some (AwaitPlans false) →
  ∃ w', step t w (Answered i (PlansReply out)) = Some w' ∧
        loading (vm w') = false ∧
        usdtOrder (vm w') = usdtOrder (vm w) ∧
        usdtModalVisible (vm w') = usdtModalVisible (vm w) ∧
        timer_view w' = timer_view w ∧
        sent w' = sent w ∧
        match accepted out with
        | Some d =>
            plans (vm w') = default (plans (vm w)) (data_plans d) ∧
            billing (vm w') = default (billing (vm w)) (data_billing d) ∧
            toasts w' = toasts w
        | None =>
            plans (vm w') = plans (vm w) ∧ billing (vm w') = billing (vm w) ∧
            toasts w' = (toasts w ++
              [ToastError (Js.or (reported_msg out) (Js.Str "Load failed"))])%list
        end.
Proof.
  intros Hi. eexists. split; [simpl; by rewrite Hi|].
  unfold load_resumed. by destruct (accepted out).
Qed.

(** X11. When a refresh is answered with a confirmed order, the page
    shows the success message, displays the order and sends the request
    for plans and billing again, with the polling interval still
    scheduled; when that second request is answered, whatever the answer,
    the interval is cleared and the handle nulled, [usdtRefreshing] and
    [loading] are lowered, and the confirmed order stays displayed in a
    modal that is neither opened nor closed by this. *)
Theorem confirmed_answer_reloads_then_stops (w : World) (i : nat)
    (out : Outcome UsdtOrder)
    (d : UsdtOrder) :
  reachable t w → inflight w !! i = Some AwaitOrder →
  accepted out = Some d → status d = Js.Str "confirmed" →
  ∃ w1, step t w (Answered i (OrderReply out)) = Some w1 ∧
        toasts w1 = (toasts w ++
                     [ToastSuccess (Js.Str (t "billing.usdt.paidSuccess"))])%list ∧
        sent w1 = (sent w ++ [Api.getMembershipPlans])%list ∧
        intervals w1 = intervals w ∧
        usdtOrder (vm w1) = Some d ∧
        ∀ pout, ∃ w2,
          step t w1 (Answered (length (delete i (inflight w))) (PlansReply pout))
          = Some w2 ∧
          intervals w2 = ∅ ∧ usdtPollingTimer (vm w2) = None ∧
          usdtRefreshing (vm w2) = false ∧ loading (vm w2) = false ∧
          usdtOrder (vm w2) = Some d ∧
          usdtModalVisible (vm w2) = usdtModalVisible (vm w) ∧
          inflight w2 = delete i (inflight w).
Proof.
  intros Hw Hi Hout Hd. apply reachable_timer_inv in Hw.
  assert (E1 : refreshUsdtOrder_resumed t out (drop_task i w)
               = load true (toast (ToastSuccess (Js.Str (t "billing.usdt.paidSuccess")))
                              (with_vm (set_usdtOrder (Some d)) (drop_task i w)))).
  { unfold refreshUsdtOrder_resumed. rewrite Hout, Hd. done. }
  eexists. split; [by apply step_settle_order|]. rewrite E1.
  split_and!; try done.
  intros pout.
  set (w1 := load true _).
  assert (Hl : inflight w1 !! length (delete i (inflight w)) = Some (AwaitPlans true))
    by apply lookup_snoc_length.
  eexists. split; [cbn [step]; rewrite Hl; reflexivity|].
  set (w2 := load_resumed pout (drop_task _ w1)).
  assert (H2 : timer_inv w2).
  { eapply timer_inv_view; [apply view_load_resumed|].
    eapply timer_inv_view; [|exact Hw]. done. }
  destruct (stopUsdtPolling_inv w2 H2) as (_ & Hnone & Hemp & _).
  destruct (stop_keeps w2) as (Eo & Em & _ & _ & Ein).
  unfold refreshUsdtOrder_loaded. cbn [intervals vm with_vm usdtPollingTimer
    usdtRefreshing set_usdtRefreshing loading usdtOrder usdtModalVisible inflight].
  rewrite Hemp, Hnone, Eo, Em, Ein.
  assert (Hv := busy_view_stop w2). unfold busy_view in Hv.
  injection Hv as Hload _ _ _. rewrite Hload.
  subst w2. unfold load_resumed.
  destruct (accepted pout); cbn; rewrite delete_snoc_length; done.
Qed.

Lemma delete_app_l {A} (l r : list A) (i : nat) :
  (i < length l)%nat → delete i (l ++ r)%list = (delete i l ++ r)%list.
Proof.
  revert i. induction l as [|x l IH]; intros [|i] Hi; simpl in *; try lia; [done|].
  rewrite IH by lia. done.
Qed.

Lemma buy_resumed_inflight out (w : World) :
  inflight (buy_resumed t out w) = inflight w.
Proof. exact (f_equal snd (busy_view_buy_resumed out w)). Qed.

(** X10. A refresh answer is applied without looking at which order it
    is about. If the interval fires for the displayed order while another
    purchase is in flight, and that purchase is answered first, its order
    is displayed; the late answer to the refresh then replaces it with
    the refreshed older order, and the next tick of the interval polls
    that older order's id. *)
Theorem stale_refresh_answer_wins (w : World) (h i : nat) (a b a' : UsdtOrder)
    (outB outA : Outcome UsdtOrder) :
  reachable t w → intervals w !! h = Some polling →
  usdtOrder (vm w) = Some a → Js.truthy (order_id a) = true →
  inflight w !! i = Some AwaitCreate →
  accepted outB = Some b → accepted outA = Some a' →
  ∃ w1 w2 w3 h',
    step t w (Tick h) = Some w1 ∧
    sent w1 = (sent w ++ [Api.getUsdtOrder (order_id a) (Js.Bool true)])%list ∧
    step t w1 (Answered i (OrderReply outB)) = Some w2 ∧
    usdtOrder (vm w2) = Some b ∧
    step t w2 (Answered (length (delete i (inflight w))) (OrderReply outA)) = Some w3 ∧
    usdtOrder (vm w3) = Some a' ∧
    intervals w3 = {[ h' := polling ]} ∧
    (Js.truthy (order_id a') = true →
     ∃ w4, step t w3 (Tick h') = Some w4 ∧
           sent w4 = (sent w3 ++ [Api.getUsdtOrder (order_id a') (Js.Bool true)])%list).
Proof.
  intros Hw Hh Ho Hid Hi HB HA. apply reachable_timer_inv in Hw.
  assert (Hlt : (i < length (inflight w))%nat) by (by eapply lookup_lt_Some).
  assert (E1 : refreshUsdtOrder w
               = request (Api.getUsdtOrder (order_id a) (Js.Bool true)) AwaitOrder
                   (with_vm (set_usdtRefreshing true) w)).
  { unfold refreshUsdtOrder. by rewrite Ho, Hid. }
  set (w1 := refreshUsdtOrder w).
  assert (Ht1 : timer_inv w1) by (by eapply timer_inv_view; [apply view_refresh|]).
  assert (Hin1 : inflight w1 = (inflight w ++ [AwaitOrder])%list)
    by (unfold w1; by rewrite E1).
  set (w2 := buy_resumed t outB (drop_task i w1)).
  destruct (buy_resumed_accepted t outB b (drop_task i w1))
    as (Ho2 & _ & _ & Hiv2 & _); [|done|].
  { eapply timer_inv_view; [apply view_drop_task | done]. }
  assert (Hin2 : inflight w2 = (delete i (inflight w) ++ [AwaitOrder])%list).
  { unfold w2. rewrite buy_resumed_inflight.
    cbn [inflight drop_task]. by rewrite Hin1, delete_app_l. }
  set (w3 := refreshUsdtOrder_resumed t outA
               (drop_task (length (delete i (inflight w))) w2)).
  assert (Hiv3 : intervals w3 = {[ next_handle (drop_task i w1) := polling ]}).
  { unfold w3. rewrite (view_intervals _ _ (view_refresh_resumed t outA _)).
    exact Hiv2. }
  assert (Ho3 : usdtOrder (vm w3) = Some a').
  { unfold w3. by rewrite refresh_resumed_order, HA. }
  exists w1, w2, w3, (next_handle (drop_task i w1)). split_and!.
  - by apply step_tick.
  - unfold w1. by rewrite E1.
  - apply step_settle_create. rewrite Hin1. by apply lookup_app_l_Some.
  - exact Ho2.
  - apply step_settle_order. rewrite Hin2. apply lookup_snoc_length.
  - exact Ho3.
  - exact Hiv3.
  - intros Hid'. eexists. split.
    + apply step_tick. rewrite Hiv3. apply lookup_singleton_eq.
    + unfold refreshUsdtOrder. by rewrite Ho3, Hid'.
Qed.

Lemma purchasing_lowered_early (w : World) (i j : nat) (out : Outcome UsdtOrder) :
  i ≠ j → inflight w !! i = Some AwaitCreate → inflight w !! j = Some AwaitCreate →
  ∃ w', step t w (Answered i (OrderReply out)) = Some w' ∧
        purchasing (vm w') = Js.Str "" ∧ AwaitCreate ∈ inflight w'.
Proof.
  intros Hij Hi Hj. eexists. split; [by apply step_settle_create|].
  split.
  - unfold buy_resumed. by destruct (accepted out).
  - rewrite buy_resumed_inflight.
    cbn [inflight drop_task]. apply list_elem_of_lookup.
    destruct (decide (j < i)%nat).
    + exists j. by rewrite list_lookup_delete_lt.
    + exists (pred j). rewrite list_lookup_delete_ge by lia.
      replace (S (pred j)) with j by lia. done.
Qed.

Lemma pretty_N_go_nonempty (x : N) (s : string) :
  s ≠ "" → pretty_N_go x s ≠ "".
Proof.
  revert s. induction (N.lt_wf_0 x) as [x _ IH]; intros s Hs.
  destruct (decide (x = 0)%N) as [->|Hx]; [by rewrite pretty_N_go_0|].
  rewrite pretty_N_go_step by lia. apply IH; [apply N.div_lt; lia | done].
Qed.

Lemma pretty_Z_nonempty (n : Z) : pretty n ≠ "".
Proof.
  destruct n as [|p|p]; [done| |done].
  unfold pretty, pretty_Z, pretty, pretty_positive, pretty, pretty_N.
  case_decide; [done|]. rewrite pretty_N_go_step by lia.
  by apply pretty_N_go_nonempty.
Qed.

Lemma to_string_truthy (v : Js.value) :
  Js.truthy v = true → Js.to_string v ≠ "".
Proof.
  destruct v as [| |[|]|n|s]; simpl; try done.
  - intros _. apply pretty_Z_nonempty.
  - by destruct (String.eqb_spec s "").
Qed.

Lemma copyText_truthy (throws : bool) (txt : Js.value) (copied : list string)
    (w : World) :
  Js.truthy txt = true →
  copyText t throws txt copied w =
    if throws then
      (copied, toast (ToastError (Js.or (Js.Str (t "common.copyFailed"))
                                        (Js.Str "Copy failed"))) w)
    else
      ((copied ++ [Js.to_string txt])%list,
       toast (ToastSuccess (Js.or (Js.Str (t "common.copySuccess"))
                                  (Js.Str "Copied"))) w).
Proof.
  intros Ht. unfold copyText.
  assert (Js.or txt (Js.Str "") = txt) as -> by (unfold Js.or; by rewrite Ht).
  destruct (String.eqb_spec (Js.to_string txt) ""); [|reflexivity].
  by apply to_string_truthy in Ht.
Qed.

Lemma copyText_falsy (throws : bool) (txt : Js.value) (copied : list string)
    (w : World) :
  Js.truthy txt = false → copyText t throws txt copied w = (copied, w).
Proof.
  intros Ht. unfold copyText.
  assert (Js.or txt (Js.Str "") = Js.Str "") as -> by (unfold Js.or; by rewrite Ht).
  reflexivity.
Qed.

Lemma steps_current_range (o : UsdtOrder) :
  (usdtStepCurrent (Some o) = 0 ∨ usdtStepCurrent (Some o) = 1
   ∨ usdtStepCurrent (Some o) = 2)%nat.
Proof. rewrite usdtStepCurrent_cases. repeat case_decide; auto. Qed.

Lemma steps_pending (o : UsdtOrder) :
  status o = Js.Str "pending" → usdtStepCurrent (Some o) = 0%nat.
Proof.
  intros E. rewrite usdtStepCurrent_cases.
  assert (status_string (Some o) = "pending") as ->
    by (unfold status_string; by rewrite E).
  done.
Qed.

(** X4. The step indicator always renders three items, labelled by
    [stepItems]. Exactly the item at index [usdtStepCurrent] is current,
    the active ones are those up to it, the lines before it are filled and
    the last item has no line. The pulse is rendered on the first item
    and only while the status is exactly [pending]: an order that is
    expired, cancelled or failed sits on the first step without it. *)
Theorem checkout_steps_shape (o : UsdtOrder) :
  length (checkout_steps t o) = 3%nat ∧
  (∀ i it, checkout_steps t o !! i = Some it →
     stepItems t !! i = Some (label it) ∧
     (current it = true ↔ i = usdtStepCurrent (Some o)) ∧
     (active it = true ↔ (i ≤ usdtStepCurrent (Some o))%nat) ∧
     (pulse it = true ↔ i = 0%nat ∧ status o = Js.Str "pending") ∧
     (line it = None ↔ i = 2%nat) ∧
     (line it = Some true ↔ (i < usdtStepCurrent (Some o))%nat)) ∧
  (∃ it, checkout_steps t o !! usdtStepCurrent (Some o) = Some it ∧
         current it = true).
Proof.
  pose proof (steps_pending o) as Hpend.
  unfold checkout_steps, stepItems.
  assert (Hp : Js.strict_eq (status o) (Js.Str "pending") = true
               ↔ status o = Js.Str "pending")
    by (unfold Js.strict_eq; apply bool_decide_eq_true).
  destruct (steps_current_range o) as [E|[E|E]]; rewrite E in *;
    (split; [reflexivity|]); (split; [|eexists; split; reflexivity]);
    intros [|[|[|i]]] it; simpl; intros [= <-]; simpl;
    rewrite ?andb_true_iff, ?Hp;
    split_and!; try reflexivity; split; intros; try done; try lia;
    try (by intuition); try (intuition; discriminate || lia).
Qed.

(** X3. [copyText] does nothing at all for a falsy value (missing, empty,
    zero): nothing is handed to the clipboard plugin and no message is
    shown. For any other value it hands the value's text, which is never
    empty, to the plugin and shows one success message, or, if the plugin
    throws, hands over nothing and shows one error message; the page's
    data, intervals and requests are never touched. For a displayed order
    with an address, the text copied by the address button is the text
    the QR code encodes. *)
Theorem copyText_behaviour :
  (∀ throws txt copied w, Js.truthy txt = false →
     copyText t throws txt copied w = (copied, w)) ∧
  (∀ txt copied w, Js.truthy txt = true →
     copyText t false txt copied w =
       ((copied ++ [Js.to_string txt])%list,
        toast (ToastSuccess (Js.or (Js.Str (t "common.copySuccess"))
                                   (Js.Str "Copied"))) w)) ∧
  (∀ txt copied w, Js.truthy txt = true →
     copyText t true txt copied w =
       (copied,
        toast (ToastError (Js.or (Js.Str (t "common.copyFailed"))
                                 (Js.Str "Copy failed"))) w)) ∧
  (∀ throws txt copied w,
     Forall (fun s => s ≠ "") copied →
     Forall (fun s => s ≠ "") (copyText t throws txt copied w).1) ∧
  (∀ throws txt copied w,
     vm (copyText t throws txt copied w).2 = vm w ∧
     intervals (copyText t throws txt copied w).2 = intervals w ∧
     sent (copyText t throws txt copied w).2 = sent w ∧
     inflight (copyText t throws txt copied w).2 = inflight w) ∧
  (∀ ord copied w, Js.truthy (address ord) = true →
     ∃ s, (copyText t false (address ord) copied w).1 = (copied ++ [s])%list ∧
          usdtQrUrl (Some ord) = qr_service +:+ encodeURIComponent s).
Proof.
  split_and!.
  - intros. by apply copyText_falsy.
  - intros txt copied w Ht. by rewrite copyText_truthy.
  - intros txt copied w Ht. by rewrite copyText_truthy.
  - intros throws txt copied w Hc. destruct (Js.truthy txt) eqn:Ht.
    + rewrite copyText_truthy by done. destruct throws; [done|]. simpl.
      apply Forall_app. split; [done|]. constructor; [|done].
      by apply to_string_truthy.
    + by rewrite copyText_falsy.
  - intros throws txt copied w. destruct (Js.truthy txt) eqn:Ht.
    + rewrite copyText_truthy by done. by destruct throws.
    + by rewrite copyText_falsy.
  - intros ord copied w Ha. exists (Js.to_string (address ord)).
    rewrite copyText_truthy by done. split; [done|].
    unfold usdtQrUrl, getUsdtQrText, Js.or. by rewrite Ha, Ha.
Qed.

(** X5. In every world the page can reach, a busy flag is raised only
    while a request whose answer lowers it is in flight: [loading] only
    with a plans request, a non-empty [purchasing] only with a purchase,
    [usdtRefreshing] only with a refresh or the reload a confirmed refresh
    awaits; so no spinner is left turning with nothing to wait for. The
    converse does not hold: of two purchases in flight, the answer to
    either one empties [purchasing] although the other is still awaited. *)
Theorem busy_flags_have_requests :
  (∀ w, reachable t w →
     (loading (vm w) = true → ∃ b, AwaitPlans b ∈ inflight w) ∧
     (Js.truthy (purchasing (vm w)) = true → AwaitCreate ∈ inflight w) ∧
     (usdtRefreshing (vm w) = true →
      AwaitOrder ∈ inflight w ∨ AwaitPlans true ∈ inflight w)) ∧
  (∀ w i j out, i ≠ j →
     inflight w !! i = Some AwaitCreate → inflight w !! j = Some AwaitCreate →
     ∃ w', step t w (Answered i (OrderReply out)) = Some w' ∧
           purchasing (vm w') = Js.Str "" ∧ AwaitCreate ∈ inflight w').
Proof.
  split.
  - intros w Hw. by destruct (reachable_invariants w Hw) as (_ & _ & Hb & _).
  - apply purchasing_lowered_early.
Qed.

(** X6. In every world the page can reach, the polling handle is set only
    while the modal is open, and the modal is open only on a displayed
    order; so whenever an interval is scheduled there is an open modal
    and an order for its tick to refresh. And once an order is displayed,
    no event ever empties [usdtOrder] again. *)
Theorem polling_behind_open_modal :
  (∀ w, reachable t w →
     (is_Some (usdtPollingTimer (vm w)) → usdtModalVisible (vm w) = true) ∧
     (usdtModalVisible (vm w) = true → is_Some (usdtOrder (vm w))) ∧
     (∀ h, is_Some (intervals w !! h) →
           usdtModalVisible (vm w) = true ∧ is_Some (usdtOrder (vm w)))) ∧
  (∀ w e w', step t w e = Some w' →
     is_Some (usdtOrder (vm w)) → is_Some (usdtOrder (vm w'))).
Proof.
  split.
  - intros w Hw. destruct (reachable_invariants w Hw) as ([_ Ht] & [Hp Hm] & _).
    split_and!; [done | done |]. intros h [x Hx].
    destruct (usdtPollingTimer (vm w)) as [h'|].
    + assert (usdtModalVisible (vm w) = true) by by apply Hp. auto.
    + by rewrite Ht, lookup_empty in Hx.
  - intros w e w'. apply step_keeps_order.
Qed.

(** X7. The page sends three kinds of request and no other: the GET of
    plans and billing, the POST that creates a USDT order for a plan, and
    the GET of one order with [refresh = 1]. Every event sends at most one
    of them. In particular the page never posts to the direct purchase
    endpoint and never asks for an order with [refresh = 0]. *)
Theorem page_sends_only :
  (∀ w, reachable t w → Forall page_request (sent w)) ∧
  (∀ w e w', step t w e = Some w' →
     sent w' = sent w ∨ ∃ r, page_request r ∧ sent w' = (sent w ++ [r])%list) ∧
  (∀ r, page_request r →
     Api.url r ≠ Api.billingApi.Purchase ∧
     (∀ plan, r ≠ Api.purchaseMembership plan) ∧
     (∀ v, ("refresh", v) ∈ Api.params r → v = Js.Num 1) ∧
     (Api.meth r = Api.POST → Api.url r = Api.billingApi.UsdtCreate)).
Proof.
  split_and!.
  - intros w Hw. by destruct (reachable_invariants w Hw) as (_ & _ & _ & Hr).
  - intros w e w'. apply step_sent.
  - intros r [->|[[plan ->]|[id ->]]]; split_and!; try done.
    + intros v Hv. set_solver.
    + intros v Hv. set_solver.
    + intros v Hv. simpl in Hv. set_solver.
Qed.

Lemma start_toasts (w : World) : toasts (startUsdtPolling w) = toasts w.
Proof.
  unfold startUsdtPolling, stopUsdtPolling.
  destruct (usdtPollingTimer (vm w)) as [h|]; [|done].
  by destruct (h =? 0)%nat.
Qed.

Lemma refresh_toasts (w : World) : toasts (refreshUsdtOrder w) = toasts w.
Proof.
  unfold refreshUsdtOrder. destruct (usdtOrder (vm w)) as [o|]; [|done].
  by destruct (Js.truthy (order_id o)).
Qed.

Lemma load_resumed_toasts out (w : World) :
  toasts (load_resumed out w) =
    match accepted out with
    | Some _ => toasts w
    | None => (toasts w ++ [ToastError (Js.or (reported_msg out)
                                              (Js.Str "Load failed"))])%list
    end.
Proof. unfold load_resumed. by destruct (accepted out). Qed.

(** X15. Every event shows at most one message, and only four kinds of
    event show one: a refresh answered with a confirmed order shows the
    success message; a purchase that is not answered successfully shows an
    error, the server's [msg] if truthy and the translated fallback
    otherwise; a load that is not answered successfully shows an error,
    the server's [msg] or [Load failed]; a press on a copy button whose
    field of the displayed order is truthy shows the copy's success
    message, or its error message if the clipboard plugin throws. Presses on the plan, refresh and
    close buttons, ticks, teardown, failed refreshes, successful purchases
    and loads, and a copy of a falsy value show nothing. *)
Theorem messages_shown (w w' : World) (e : Event) :
  step t w e = Some w' →
  toasts w' = toasts w ∨
  (∃ i out d, e = Answered i (OrderReply out) ∧
     inflight w !! i = Some AwaitOrder ∧ accepted out = Some d ∧
     status d = Js.Str "confirmed" ∧
     toasts w' = (toasts w ++
                  [ToastSuccess (Js.Str (t "billing.usdt.paidSuccess"))])%list) ∨
  (∃ i out, e = Answered i (OrderReply out) ∧
     inflight w !! i = Some AwaitCreate ∧ accepted out = None ∧
     toasts w' = (toasts w ++
                  [ToastError (Js.or (reported_msg out)
                                     (Js.Str (t "billing.purchaseFailed")))])%list) ∨
  (∃ i b out, e = Answered i (PlansReply out) ∧
     inflight w !! i = Some (AwaitPlans b) ∧ accepted out = None ∧
     toasts w' = (toasts w ++
                  [ToastError (Js.or (reported_msg out) (Js.Str "Load failed"))])%list) ∨
  (∃ th b o, e = ClickCopy th b ∧ usdtOrder (vm w) = Some o ∧
     Js.truthy (copied_value b o) = true ∧
     toasts w' = (toasts w ++
                  [if th
                   then ToastError (Js.or (Js.Str (t "common.copyFailed"))
                                          (Js.Str "Copy failed"))
                   else ToastSuccess (Js.or (Js.Str (t "common.copySuccess"))
                                            (Js.Str "Copied"))])%list).
Proof.
  intros Hstep. destruct e as [plan| | | |h|i r|th txt]; cbn [step] in Hstep.
  - injection Hstep as <-. by left.
  - injection Hstep as <-. left. apply refresh_toasts.
  - injection Hstep as <-. left. unfold closeUsdtModal.
    by destruct (stop_keeps (with_vm (set_usdtModalVisible false) w))
      as (_ & _ & _ & -> & _).
  - injection Hstep as <-. left. unfold beforeDestroy.
    by destruct (stop_keeps w) as (_ & _ & _ & -> & _).
  - destruct (intervals w !! h) as [[p []]|]; [|done]. injection Hstep as <-.
    left. apply refresh_toasts.
  - destruct (inflight w !! i) as [k|] eqn:Ei; [|done].
    destruct k as [[|]| |], r as [out|out]; cbn [resume] in Hstep; try done;
      injection Hstep as <-.
    + unfold refreshUsdtOrder_loaded. cbn [toasts with_vm].
      destruct (stop_keeps (load_resumed out (drop_task i w))) as (_ & _ & _ & -> & _).
      rewrite load_resumed_toasts. destruct (accepted out) eqn:Eo; [by left|].
      right; right; right; left. by exists i, true, out.
    + rewrite load_resumed_toasts. destruct (accepted out) eqn:Eo; [by left|].
      right; right; right; left. by exists i, false, out.
    + unfold buy_resumed. destruct (accepted out) as [d|] eqn:Eo.
      * left. cbn [toasts with_vm]. by rewrite start_toasts.
      * right; right; left. by exists i, out.
    + unfold refreshUsdtOrder_resumed. destruct (accepted out) as [d|] eqn:Eo; [|by left].
      unfold Js.strict_eq. case_bool_decide as Hd; [|by left].
      right; left. by exists i, out, d.
  - destruct (usdtOrder (vm w)) as [o|]; [|done]. injection Hstep as <-.
    destruct (Js.truthy (copied_value txt o)) eqn:Ht.
    + right; right; right; right. exists th, txt, o. split_and!; [done..|].
      rewrite copyText_truthy by done. by destruct th.
    + left. by rewrite copyText_falsy.
Qed.

(** X16. The displayed order changes only when a purchase or a refresh is
    answered successfully, and then to the order in the answer. The modal
    opens only on a successful answer to a purchase and closes only
    through [closeUsdtModal]; in particular a confirmed, expired or failed
    order never closes it. *)
Theorem display_changes (w w' : World) (e : Event) :
  step t w e = Some w' →
  (usdtOrder (vm w') ≠ usdtOrder (vm w) →
   ∃ i out d, e = Answered i (OrderReply out) ∧
     (inflight w !! i = Some AwaitCreate ∨ inflight w !! i = Some AwaitOrder) ∧
     accepted out = Some d ∧ usdtOrder (vm w') = Some d) ∧
  (usdtModalVisible (vm w) = false → usdtModalVisible (vm w') = true →
   ∃ i out d, e = Answered i (OrderReply out) ∧
     inflight w !! i = Some AwaitCreate ∧ accepted out = Some d) ∧
  (usdtModalVisible (vm w) = true → usdtModalVisible (vm w') = false →
   e = ClickClose).
Proof.
  intros Hstep.
  assert (Hsame : ∀ w1 : World,
            usdtOrder (vm w1) = usdtOrder (vm w) →
            usdtModalVisible (vm w1) = usdtModalVisible (vm w) →
            ∀ P Q R : Prop,
              (usdtOrder (vm w1) ≠ usdtOrder (vm w) → P) ∧
              (usdtModalVisible (vm w) = false →
               usdtModalVisible (vm w1) = true → Q) ∧
              (usdtModalVisible (vm w) = true →
               usdtModalVisible (vm w1) = false → R)).
  { intros w1 -> -> P Q R. split_and!; [done|congruence|congruence]. }
  destruct e as [plan| | | |h|i r|th txt];
    [..|destruct (step_copy t _ _ _ _ Hstep) as [->|[m ->]]; by apply Hsame];
    cbn [step] in Hstep.
  - injection Hstep as <-. by apply Hsame.
  - injection Hstep as <-. destruct (refresh_keeps w) as (? & ? & _). by apply Hsame.
  - injection Hstep as <-. split_and!; [|..|done].
    + unfold closeUsdtModal.
      by destruct (stop_keeps (with_vm (set_usdtModalVisible false) w)) as (-> & _).
    + unfold closeUsdtModal.
      destruct (stop_keeps (with_vm (set_usdtModalVisible false) w)) as (_ & -> & _).
      done.
  - injection Hstep as <-. destruct (stop_keeps w) as (? & ? & _). by apply Hsame.
  - destruct (intervals w !! h) as [[p []]|]; [|done]. injection Hstep as <-.
    destruct (refresh_keeps w) as (? & ? & _). by apply Hsame.
  - destruct (inflight w !! i) as [k|] eqn:Ei; [|done].
    destruct k as [[|]| |], r as [out|out]; cbn [resume] in Hstep; try done;
      injection Hstep as <-.
    + apply Hsame; unfold refreshUsdtOrder_loaded;
        cbn [vm with_vm usdtOrder usdtModalVisible set_usdtRefreshing];
        destruct (stop_keeps (load_resumed out (drop_task i w))) as (Eo & Em & _);
        rewrite ?Eo, ?Em; unfold load_resumed; by destruct (accepted out).
    + apply Hsame; unfold load_resumed; by destruct (accepted out).
    + destruct (accepted out) as [d|] eqn:Eo.
      * assert (Ho : usdtOrder (vm (buy_resumed t out (drop_task i w))) = Some d).
        { unfold buy_resumed. rewrite Eo.
          cbn [vm with_vm usdtOrder set_purchasing].
          by destruct (startUsdtPolling_keeps
            (with_vm (set_usdtModalVisible true)
               (with_vm (set_usdtOrder (Some d)) (drop_task i w)))) as (-> & _). }
        split_and!.
        -- intros _. exists i, out, d. auto.
        -- intros _ _. by exists i, out, d.
        -- intros _. unfold buy_resumed. rewrite Eo.
           cbn [vm with_vm usdtModalVisible set_purchasing].
           by destruct (startUsdtPolling_keeps
             (with_vm (set_usdtModalVisible true)
                (with_vm (set_usdtOrder (Some d)) (drop_task i w)))) as (_ & -> & _).
      * apply Hsame; unfold buy_resumed; by rewrite Eo.
    + split_and!.
      * rewrite refresh_resumed_order. destruct (accepted out) as [d|] eqn:Eo; [|done].
        intros _. exists i, out, d. auto.
      * unfold refreshUsdtOrder_resumed. destruct (accepted out) as [d|]; [|simpl; congruence].
        destruct (Js.strict_eq (status d) (Js.Str "confirmed")); simpl; congruence.
      * unfold refreshUsdtOrder_resumed. destruct (accepted out) as [d|]; [|simpl; congruence].
        destruct (Js.strict_eq (status d) (Js.Str "confirmed")); simpl; congruence.
Qed.

(** X14. For the three statuses of the payment's progress ([pending],
    [paid], [confirmed]) the status tag reads exactly what the label of
    the current step reads, provided the translation is not empty. *)
Theorem tag_matches_step (o : UsdtOrder) (name : string) :
  name ∈ ["pending"; "paid"; "confirmed"] →
  status o = Js.Str name →
  t ("billing.usdt.status." +:+ name) ≠ "" →
  stepItems t !! usdtStepCurrent (Some o) = Some (t ("billing.usdt.status." +:+ name)) ∧
  statusText t (Some o) = Js.Own (t ("billing.usdt.status." +:+ name)).
Proof.
  intros Hn Ho Ht.
  assert (Hs : status_string (Some o) = name).
  { unfold status_string. rewrite Ho.
    set_unfold. destruct Hn as [->|[->|[->|[]]]]; reflexivity. }
  rewrite usdtStepCurrent_cases. unfold statusText, Js.get. rewrite Hs.
  apply String.eqb_neq in Ht.
  assert (Hlook : status_map t !! name = Some (t ("billing.usdt.status." +:+ name))).
  { set_unfold. destruct Hn as [->|[->|[->|[]]]]; reflexivity. }
  rewrite Hlook. split.
  - set_unfold. destruct Hn as [->|[->|[->|[]]]]; reflexivity.
  - unfold Js.truthy. by rewrite Ht.
Qed.

End PageFacts.

Lemma usdtQrUrl_shape_witness :
  ∃ e, Checkout.usdtQrUrl (Some MoreSamples.odd_address_order)
       = Checkout.qr_service +:+ e ∧
       Checkout.all_chars Checkout.uri_safe e = true ∧
       Checkout.percent_decode e = "T1&data=x y".
Proof.
  destruct usdtQrUrl_shape as (_ & H & _).
  exact (H MoreSamples.odd_address_order eq_refl).
Defined.

Lemma usdtQrUrl_injective_witness :
  Checkout.usdtQrUrl (Some Samples.pending_order)
  = Checkout.qr_service +:+ "TXYZ" ∧
  Checkout.usdtQrUrl (Some Samples.pending_order)
  ≠ Checkout.usdtQrUrl (Some MoreSamples.odd_address_order).
Proof.
  destruct usdtQrUrl_injective as (_ & Hdiff & Hplain).
  split.
  - apply (Hplain Samples.pending_order "TXYZ"); [reflexivity | discriminate | reflexivity].
  - apply Hdiff; [reflexivity | discriminate].
Defined.

Lemma reachable_purchasing_monthly :
  Page.reachable (fun k => k) MoreSamples.purchasing_monthly.
Proof. exists [Page.ClickBuy (Js.Str "monthly")]. reflexivity. Qed.

Lemma reachable_after_purchase :
  Page.reachable (fun k => k) Samples.after_purchase.
Proof.
  exists [Page.ClickBuy (Js.Str "monthly");
          Page.Answered 1 (Page.OrderReply (Samples.ok_reply Samples.pending_order))].
  reflexivity.
Qed.

Lemma reachable_second_answered :
  Page.reachable (fun k => k) Samples.second_answered.
Proof.
  exists [Page.ClickBuy (Js.Str "monthly"); Page.ClickBuy (Js.Str "yearly");
          Page.Answered 2 (Page.OrderReply (Samples.ok_reply Samples.paid_order))].
  reflexivity.
Qed.

Lemma reachable_polled : Page.reachable (fun k => k) MoreSamples.polled.
Proof.
  exists [Page.ClickBuy (Js.Str "monthly");
          Page.Answered 1 (Page.OrderReply (Samples.ok_reply Samples.pending_order));
          Page.Tick 1].
  reflexivity.
Qed.

Lemma copyText_behaviour_witness :
  Page.copyText (fun k => k) false (Js.Str "TXYZ") [] Page.world0
  = (["TXYZ"],
     Page.toast (Page.ToastSuccess (Js.Str "common.copySuccess")) Page.world0).
Proof.
  destruct (copyText_behaviour (fun k => k)) as (_ & H & _).
  exact (H (Js.Str "TXYZ") [] Page.world0 eq_refl).
Defined.

Lemma checkout_steps_shape_witness :
  Checkout.pulse MoreSamples.expired_first_step = true ↔
  0%nat = 0%nat ∧ Page.status Samples.expired_order = Js.Str "pending".
Proof.
  destruct (checkout_steps_shape (fun k => k) Samples.expired_order) as (_ & H & _).
  destruct (H 0%nat MoreSamples.expired_first_step eq_refl) as (_ & _ & _ & Hp & _).
  exact Hp.
Defined.

Lemma busy_flags_have_requests_witness :
  ∃ b, Page.AwaitPlans b ∈ Page.inflight Samples.after_purchase.
Proof.
  destruct (busy_flags_have_requests (fun k => k)) as (H & _).
  destruct (H Samples.after_purchase reachable_after_purchase) as (Hl & _).
  apply Hl. reflexivity.
Defined.

Lemma polling_behind_open_modal_witness :
  Page.usdtModalVisible (Page.vm Samples.after_purchase) = true.
Proof.
  destruct (polling_behind_open_modal (fun k => k)) as (H & _).
  destruct (H Samples.after_purchase reachable_after_purchase) as (Hp & _).
  apply Hp. exists 1%nat. reflexivity.
Defined.

Lemma page_sends_only_witness :
  Forall Checkout.page_request (Page.sent MoreSamples.polled).
Proof.
  destruct (page_sends_only (fun k => k)) as (H & _).
  exact (H MoreSamples.polled reachable_polled).
Defined.

Lemma polling_starts_only_on_purchase_witness :
  ∃ i out d,
    Page.Answered 1 (Page.OrderReply (Samples.ok_reply Samples.pending_order))
    = Page.Answered i (Page.OrderReply out) ∧
    Page.inflight MoreSamples.purchasing_monthly !! i = Some Page.AwaitCreate ∧
    Page.accepted out = Some d.
Proof.
  apply (polling_starts_only_on_purchase (fun k => k)
           MoreSamples.purchasing_monthly Samples.after_purchase).
  - reflexivity.
  - reflexivity.
  - change (Page.intervals Samples.after_purchase)
      with ({[ 1%nat := Page.polling ]} : gmap nat Page.Interval).
    apply map_non_empty_singleton.
Defined.

Lemma purchase_outlives_close_and_teardown_witness :
  ∃ w1 w2 h,
    Page.step (fun k => k) MoreSamples.purchasing_monthly Page.Destroy = Some w1 ∧
    Page.intervals w1 = ∅ ∧
    Page.step (fun k => k) w1
      (Page.Answered 1 (Page.OrderReply (Samples.ok_reply Samples.pending_order)))
    = Some w2 ∧
    Page.usdtPollingTimer (Page.vm w2) = Some h ∧
    Page.intervals w2 = {[ h := Page.polling ]} ∧
    Page.usdtModalVisible (Page.vm w2) = true ∧
    Page.usdtOrder (Page.vm w2) = Some Samples.pending_order.
Proof.
  apply (purchase_outlives_close_and_teardown (fun k => k)
           MoreSamples.purchasing_monthly 1%nat
           (Samples.ok_reply Samples.pending_order) Samples.pending_order
           Page.Destroy).
  - right. reflexivity.
  - exact reachable_purchasing_monthly.
  - reflexivity.
  - reflexivity.
Defined.

Lemma stale_refresh_answer_wins_witness :
  ∃ w1 w2 w3 h',
    Page.step (fun k => k) Samples.second_answered (Page.Tick 1) = Some w1 ∧
    Page.sent w1 = (Page.sent Samples.second_answered ++
                    [Api.getUsdtOrder (Js.Num 7) (Js.Bool true)])%list ∧
    Page.step (fun k => k) w1
      (Page.Answered 1 (Page.OrderReply (Samples.ok_reply Samples.pending_order)))
    = Some w2 ∧
    Page.usdtOrder (Page.vm w2) = Some Samples.pending_order ∧
    Page.step (fun k => k) w2
      (Page.Answered 1 (Page.OrderReply (Samples.ok_reply Samples.expired_order)))
    = Some w3 ∧
    Page.usdtOrder (Page.vm w3) = Some Samples.expired_order ∧
    Page.intervals w3 = {[ h' := Page.polling ]} ∧
    (Js.truthy (Js.Num 7) = true →
     ∃ w4, Page.step (fun k => k) w3 (Page.Tick h') = Some w4 ∧
           Page.sent w4 = (Page.sent w3 ++
                           [Api.getUsdtOrder (Js.Num 7) (Js.Bool true)])%list).
Proof.
  apply (stale_refresh_answer_wins (fun k => k) Samples.second_answered 1%nat 1%nat
           Samples.paid_order Samples.pending_order Samples.expired_order
           (Samples.ok_reply Samples.pending_order)
           (Samples.ok_reply Samples.expired_order)).
  - exact reachable_second_answered.
  - reflexivity.
  - reflexivity.
  - reflexivity.
  - reflexivity.
  - reflexivity.
  - reflexivity.
Defined.

Lemma confirmed_answer_reloads_then_stops_witness :
  ∃ w1,
    Page.step (fun k => k) MoreSamples.polled
      (Page.Answered 1 (Page.OrderReply (Samples.ok_reply MoreSamples.confirmed_order)))
    = Some w1 ∧
    Page.sent w1 = (Page.sent MoreSamples.polled ++ [Api.getMembershipPlans])%list ∧
    Page.intervals w1 = Page.intervals MoreSamples.polled.
Proof.
  destruct (confirmed_answer_reloads_then_stops (fun k => k) MoreSamples.polled 1%nat
              (Samples.ok_reply MoreSamples.confirmed_order)
              MoreSamples.confirmed_order)
    as (w1 & Hs & _ & Hsent & Hi & _).
  - exact reachable_polled.
  - reflexivity.
  - reflexivity.
  - reflexivity.
  - exists w1. split; [exact Hs|]. split; [exact Hsent | exact Hi].
Defined.

Lemma idle_polling_without_id_witness :
  Page.refreshUsdtOrder MoreSamples.after_idless_purchase
  = MoreSamples.after_idless_purchase ∧
  Page.run (fun k => k) MoreSamples.after_idless_purchase
    (replicate 5 (Page.Tick 1)) = Some MoreSamples.after_idless_purchase.
Proof.
  apply (idle_polling_without_id (fun k => k) MoreSamples.after_idless_purchase
           1%nat 5%nat).
  - reflexivity.
  - right. exists MoreSamples.idless_order. split; reflexivity.
Defined.

Lemma load_outcomes_witness :
  ∃ w', Page.step (fun k => k) (Page.created Page.world0)
          (Page.Answered 0 (Page.PlansReply Samples.timed_out)) = Some w' ∧
        Page.loading (Page.vm w') = false ∧
        Page.plans (Page.vm w') = Page.plans Page.data0 ∧
        Page.toasts w' = [Page.ToastError (Js.Str "Load failed")].
Proof.
  destruct (load_outcomes (fun k => k) (Page.created Page.world0) 0%nat
              Samples.timed_out eq_refl)
    as (w' & Hs & Hl & _ & _ & _ & _ & Hp & _ & Ht).
  exists w'. split; [exact Hs|]. split; [exact Hl|]. split; [exact Hp | exact Ht].
Defined.

Lemma tag_matches_step_witness :
  Page.stepItems (fun k => k) !! Page.usdtStepCurrent (Some Samples.paid_order)
  = Some ("billing.usdt.status." +:+ "paid") ∧
  Page.statusText (fun k => k) (Some Samples.paid_order)
  = Js.Own ("billing.usdt.status." +:+ "paid").
Proof.
  apply (tag_matches_step (fun k => k) Samples.paid_order "paid").
  - set_solver.
  - reflexivity.
  - discriminate.
Defined.

Lemma messages_shown_witness :
  Page.step (fun k => k) Samples.after_purchase
    (Page.ClickCopy false Page.CopyAddress)
  = Some (Page.toast (Page.ToastSuccess (Js.Str "common.copySuccess"))
            Samples.after_purchase) ∧
  Page.toasts (Page.toast (Page.ToastSuccess (Js.Str "common.copySuccess"))
                 Samples.after_purchase)
  = (Page.toasts Samples.after_purchase ++
     [Page.ToastSuccess (Js.Str "common.copySuccess")])%list.
Proof.
  split; [reflexivity|].
  destruct (messages_shown (fun k => k) Samples.after_purchase
              (Page.toast (Page.ToastSuccess (Js.Str "common.copySuccess"))
                 Samples.after_purchase)
              (Page.ClickCopy false Page.CopyAddress) eq_refl)
    as [H|[(i & out & d & He & _)|[(i & out & He & _)|[(i & b & out & He & _)
        |(th & b & o & He & Ho & Ht & H)]]]].
  - discriminate H.
  - discriminate He.
  - discriminate He.
  - discriminate He.
  - injection He as <- <-. exact H.
Defined.

Lemma display_changes_witness :
  ∃ i out d,
    Page.Answered 1 (Page.OrderReply (Samples.ok_reply Samples.pending_order))
    = Page.Answered i (Page.OrderReply out) ∧
    Page.inflight MoreSamples.purchasing_monthly !! i = Some Page.AwaitCreate ∧
    Page.accepted out = Some d.
Proof.
  destruct (display_changes (fun k => k) MoreSamples.purchasing_monthly
              Samples.after_purchase
              (Page.Answered 1 (Page.OrderReply (Samples.ok_reply Samples.pending_order)))
              eq_refl) as (_ & H & _).
  apply H; reflexivity.
Defined.
